(** * ELISA plate layout: the assignment scheduler of [src/layout.py]
    and the per-plate overflow loop of [elisa_design.py].

    The Python code is embedded shallowly: the two pandas frames of a
    [PlateLayout] are finite maps from wells to cell contents, the
    scheduler's [while] loop is a step function on its three local
    variables iterated under fuel, and Python exceptions are values of an
    error monad. *)

From stdpp Require Import gmap strings pretty list fin_maps.

(** ** Python outcomes *)

Inductive pyexc := ZeroDivisionError | IndexError.

(** [OutOfFuel] is the model's reading of a loop that has not exited after
    the iterations it was given. *)
Inductive result (A : Type) : Type :=
  | Ok (a : A)
  | Raise (e : pyexc)
  | OutOfFuel.
Arguments Ok {A} a.
Arguments Raise {A} e.
Arguments OutOfFuel {A}.

#[global] Instance result_ret : MRet result := @Ok.
#[global] Instance result_bind : MBind result := λ A B f m,
  match m with
  | Ok a => f a
  | Raise e => Raise e
  | OutOfFuel => OutOfFuel
  end.

(** ** Data model *)

(** A well is a (row label, column number) pair; a group is
    [(sub_samples, reps)]; an assignment is the triple [(s_id, row, col)]
    appended to [final_assignments]. *)
Abbreviation well := (string * Z)%type.
Abbreviation group := (list string * Z)%type.
Abbreviation assignment := (string * string * Z)%type.

(** The standard concentrations are only ever formatted into the cell text
    by [f"STD_{conc}"], never computed with: a concentration is carried as
    the decimal text Python prints for it. *)
Record PlateLayout := mkPlateLayout {
  rows : list string;
  cols : list Z;
  layout_grid : gmap (string * Z) string;
  type_grid : gmap (string * Z) string;
  standard_concentrations : list string
}.

Definition default_standards : list string :=
  ["0"; "0.1"; "0.2"; "0.4"; "0.8"; "1.6"; "3.2"; "6.4"].

Definition plate_rows : list string := ["A"; "B"; "C"; "D"; "E"; "F"; "G"; "H"].

(** [self.layout_grid.at[row, col] = value; self.type_grid.at[row, col] = ty] *)
Definition write_well (self : PlateLayout) (row : string) (col : Z)
    (value ty : string) : PlateLayout :=
  mkPlateLayout (rows self) (cols self)
    (<[(row, col) := value]> (layout_grid self))
    (<[(row, col) := ty]> (type_grid self))
    (standard_concentrations self).

(** The body of [for i, row in enumerate(self.rows)], from index [i] on. *)
Fixpoint standards_loop (reversed_concs : list string) (i : nat)
    (rs : list string) (self : PlateLayout) : result PlateLayout :=
  match rs with
  | [] => Ok self
  | row :: rs' =>
      match reversed_concs !! i with
      | None => Raise IndexError
      | Some conc =>
          standards_loop reversed_concs (S i) rs'
            (write_well self row 1 ("STD_" +:+ conc) "Standard")
      end
  end.

Definition _initialize_standards (self : PlateLayout) : result PlateLayout :=
  if decide (length (standard_concentrations self) ≠ 8) then Ok self
  else
    let reversed_concs := reverse (standard_concentrations self) in
    standards_loop reversed_concs 0 (rows self) self.

(** [PlateLayout.__init__]: an empty list is falsy, so calibration is then
    skipped without calling [_initialize_standards]. *)
Definition PlateLayout__init__ (standard_concentrations : list string)
    : result PlateLayout :=
  let self :=
    mkPlateLayout plate_rows (seqZ 1 12) ∅ ∅ standard_concentrations in
  match standard_concentrations with
  | [] => Ok self
  | _ :: _ => _initialize_standards self
  end.

(** ** The scheduler *)

(** [valid_slots]: rows in order, and in each row the columns
    [range(start_col, 13)]. *)
Definition valid_slots_of (rs : list string) (start_col : Z) : list well :=
  row_lbl ← rs; c ← seqZ start_col (13 - start_col); [(row_lbl, c)].

(** The counting loop of [slots_in_row], run over [valid_slots[slot_idx:]]:
    it stops at the first slot of another row. *)
Fixpoint count_row (curr_r : string) (slots : list well) : nat :=
  match slots with
  | [] => 0
  | (r, _) :: slots' =>
      if decide (r = curr_r) then S (count_row curr_r slots') else 0
  end.

(** The first-fit scan; [None] is the Python sentinel [-1]. *)
Fixpoint first_fit (queue : list group) (slots_in_row : Z) : option nat :=
  match queue with
  | [] => None
  | (_, reps) :: queue' =>
      if decide (reps ≤ slots_in_row)%Z then Some 0
      else S <$> first_fit queue' slots_in_row
  end.

(** [for k in range(sub_reps): final_assignments.append(...)] for one
    member; an index past the end of [valid_slots] raises. *)
Fixpoint place_reps (valid_slots : list well) (s_id : string)
    (slot_idx : nat) (ks : list nat) : result (list assignment) :=
  match ks with
  | [] => Ok []
  | k :: ks' =>
      match valid_slots !! (slot_idx + k) with
      | None => Raise IndexError
      | Some (r, c) =>
          rest ← place_reps valid_slots s_id slot_idx ks';
          Ok ((s_id, r, c) :: rest)
      end
  end.

(** [for i in range(tps_to_place)], over the members it visits: each one
    appends its replicates and advances [slot_idx] by [sub_reps]. *)
Fixpoint place_members (valid_slots : list well) (members : list string)
    (sub_reps : Z) (slot_idx : nat) (final_assignments : list assignment)
    : result (nat * list assignment) :=
  match members with
  | [] => Ok (slot_idx, final_assignments)
  | s_id :: members' =>
      new ← place_reps valid_slots s_id slot_idx (seq 0 (Z.to_nat sub_reps));
      place_members valid_slots members' sub_reps
        (slot_idx + Z.to_nat sub_reps) (final_assignments ++ new)
  end.

(** The slice [l[i:]], with Python's reading of a negative [i]. *)
Definition py_slice_from {A} (l : list A) (i : Z) : list A :=
  if decide (i < 0)%Z then drop (Z.to_nat (Z.max 0 (Z.of_nat (length l) + i))) l
  else drop (Z.to_nat i) l.

(** The local variables of [assign_samples] that the loop updates. *)
Record sched := Sched {
  slot_idx : nat;
  queue : list group;
  final_assignments : list assignment
}.

(** One evaluation of the [while] condition followed by one pass through
    the body: [Ok None] when the loop exits (condition false, or [break]),
    [Ok (Some st')] when it goes round again. *)
Definition sched_step (valid_slots : list well) (st : sched)
    : result (option sched) :=
  let total_slots := length valid_slots in
  if decide (slot_idx st < total_slots) then
    match queue st with
    | [] => Ok None
    | _ :: _ =>
        match valid_slots !! slot_idx st with
        | None => Raise IndexError
        | Some (curr_r, _) =>
            let slots_in_row :=
              count_row curr_r (drop (slot_idx st) valid_slots) in
            match first_fit (queue st) (Z.of_nat slots_in_row) with
            | None =>
                Ok (Some (Sched (slot_idx st + slots_in_row) (queue st)
                            (final_assignments st)))
            | Some best_candidate_idx =>
                match queue st !! best_candidate_idx with
                | None => Raise IndexError
                | Some (sub_samples, sub_reps) =>
                    let popped := delete best_candidate_idx (queue st) in
                    if decide (sub_reps = 0)%Z then Raise ZeroDivisionError
                    else
                      let max_tps := (Z.of_nat slots_in_row `div` sub_reps)%Z in
                      let tps_to_place :=
                        (Z.of_nat (length sub_samples) `min` max_tps)%Z in
                      '(idx', fa') ←
                        place_members valid_slots
                          (take (Z.to_nat tps_to_place) sub_samples)
                          sub_reps (slot_idx st) (final_assignments st);
                      Ok (Some (Sched idx'
                        (if decide (tps_to_place < Z.of_nat (length sub_samples))%Z
                         then (py_slice_from sub_samples tps_to_place, sub_reps)
                                :: popped
                         else popped)
                        fa'))
                end
            end
        end
    end
  else Ok None.

(** The [while] loop: one unit of fuel per evaluation of its condition. *)
Fixpoint sched_loop (fuel : nat) (valid_slots : list well) (st : sched)
    : result (list assignment * list group) :=
  match fuel with
  | 0 => OutOfFuel
  | S fuel' =>
      match sched_step valid_slots st with
      | Ok None => Ok (final_assignments st, queue st)
      | Ok (Some st') => sched_loop fuel' valid_slots st'
      | Raise e => Raise e
      | OutOfFuel => OutOfFuel
      end
  end.

(** The PlacementResult of one run over a slot sequence: the pair
    [(final_assignments, leftovers)]. The loop is given
    [len(valid_slots) + len(queue)] passes through its body. *)
Definition schedule (valid_slots : list well) (grouped : list group)
    : result (list assignment * list group) :=
  sched_loop (S (length valid_slots + length grouped)) valid_slots
    (Sched 0 grouped []).

Definition _render_assignments_linear (self : PlateLayout)
    (assignments : list assignment) : PlateLayout :=
  foldl (λ self a, let '(s_id, r, c) := a in write_well self r c s_id "Sample")
    self assignments.

Definition assign_samples (self : PlateLayout)
    (grouped_samples_with_reps : list group) (start_col : Z)
    : result (PlateLayout * list group) :=
  let valid_slots := valid_slots_of (rows self) start_col in
  '(final_assignments, leftovers) ←
    schedule valid_slots grouped_samples_with_reps;
  Ok (_render_assignments_linear self final_assignments, leftovers).

(** ** The per-plate loop of [main] in [elisa_design.py]

    Saving the files, the prompt and the manual edit act on the plate after
    [assign_samples] returned and do not touch [leftovers]; they are taken
    to succeed, and the loop is modelled by the plates it generates. One
    unit of fuel per plate. *)
Fixpoint plates_loop (fuel : nat) (current_samples : list group)
    : result (list PlateLayout) :=
  match fuel with
  | 0 => OutOfFuel
  | S fuel' =>
      match current_samples with
      | [] => Ok []
      | _ :: _ =>
          layout ← PlateLayout__init__ default_standards;
          '(layout', leftovers) ← assign_samples layout current_samples 2;
          match leftovers with
          | [] => Ok [layout']
          | _ :: _ =>
              plates ← plates_loop fuel' leftovers;
              Ok (layout' :: plates)
          end
      end
  end.

(** ** Specification vocabulary *)

(** A placed member: its sample id, the number of wells it received and the
    position in the slot sequence of the first of them. *)
Record placement := Placement { p_id : string; p_reps : nat; p_start : nat }.

(** The assignments of a placed member: the [p_reps] consecutive slots from
    position [p_start], each paired with the sample id, in slot order. *)
Definition block (valid_slots : list well) (p : placement) : list assignment :=
  (λ w : well, (p_id p, w.1, w.2)) <$> take (p_reps p) (drop (p_start p) valid_slots).

(** Members placed one after the other from position [idx], [n] wells each. *)
Fixpoint placements (members : list string) (n idx : nat) : list placement :=
  match members with
  | [] => []
  | s_id :: members' => Placement s_id n idx :: placements members' n (idx + n)
  end.

(** [tps_to_place] as a count. *)
Definition tps_of (n_members slots_in_row : nat) (reps : Z) : nat :=
  Z.to_nat (Z.of_nat n_members `min` (Z.of_nat slots_in_row `div` reps))%Z.

(** The sample ids of a queue, group after group, and the same list with
    each id tagged by the replicate count of its group. *)
Definition sample_ids (q : list group) : list string := q ≫= fst.
Definition tagged (q : list group) : list (string * Z) :=
  g ← q; (λ s, (s, g.2)) <$> g.1.
Definition tag (p : placement) : string * Z := (p_id p, Z.of_nat (p_reps p)).

Definition assigned_id (a : assignment) : string := a.1.1.
Definition assigned_well (a : assignment) : well := (a.1.2, a.2).

(** A placed member's wells lie inside the slot sequence and in one row. *)
Definition in_one_row (slots : list well) (p : placement) : Prop :=
  1 ≤ p_reps p ∧ p_start p + p_reps p ≤ length slots ∧
  ∃ r, Forall (λ w : well, w.1 = r) (take (p_reps p) (drop (p_start p) slots)).

(** The queues the data model allows: every replicate count is at least 1. *)
Definition valid_queue (q : list group) : Prop :=
  Forall (λ g : group, (1 ≤ g.2)%Z) q.

(** The loop goes round once more, from [st] to [st']. *)
Definition sched_next (slots : list well) (st st' : sched) : Prop :=
  sched_step slots st = Ok (Some st').

(** What holds of the members [pl] placed so far, for every input: the
    assignments are their blocks, each block lies in one row, each placed
    member is a member of an input group and has that group's replicate
    count, and the queue only holds members of the input queue. *)
Definition placed_inv (slots : list well) (q0 : list group) (st : sched)
    (pl : list placement) : Prop :=
  final_assignments st = pl ≫= block slots ∧
  Forall (in_one_row slots) pl ∧
  Forall (λ p, tag p ∈ tagged q0) pl ∧
  (∀ x, x ∈ tagged (queue st) → x ∈ tagged q0).

(** Placed members and queued members together are the input's members. *)
Definition conserved (q0 : list group) (st : sched) (pl : list placement) : Prop :=
  (tag <$> pl) ++ tagged (queue st) ≡ₚ tagged q0.

(** Two groups that share a sample id, the second too wide for any row. *)
Definition dup_queue : list group := [(["a"], 2%Z); (["a"], 12%Z)].

(** Two groups of six replicates each: after the first, five slots remain
    in row A. *)
Definition two_sixes : list group := [(["a"], 6%Z); (["b"], 6%Z)].

(** A state at the start of row A (eleven slots from column 2): the first
    group is too wide for any row, the next two have three replicates
    each. *)
Definition fifo_state : sched :=
  Sched 0 [(["w"], 12%Z); (["x1"; "x2"; "x3"; "x4"], 3%Z); (["y"], 3%Z)] [].

(** A state whose first fitting group has no members. *)
Definition hollow_state : sched :=
  Sched 0 [(["w"], 12%Z); ([], 3%Z); (["y"], 3%Z)] [].

(** No row of the slot sequence has more than [cap] slots left at any
    cursor position. *)
Definition row_capacity (slots : list well) (cap : nat) : Prop :=
  ∀ idx r c, slots !! idx = Some (r, c) → count_row r (drop idx slots) ≤ cap.

(** The remainder queue [main] holds after [k] plates. *)
Fixpoint remainder_after (k : nat) (current_samples : list group)
    : result (list group) :=
  match k with
  | 0 => Ok current_samples
  | S k' =>
      layout ← PlateLayout__init__ default_standards;
      '(_, leftovers) ← assign_samples layout current_samples 2;
      remainder_after k' leftovers
  end.

(** A queue of one group that no row of eleven slots can hold. *)
Definition starved_queue : list group := [(["s"], 12%Z)].

(** What is still to be placed: the members of a queue and its groups. *)
Definition members_and_groups (q : list group) : nat :=
  length (tagged q) + length q.

(** The replicate counts a row of eleven slots can hold. *)
Definition fits_a_row (q : list group) : Prop :=
  Forall (λ g : group, (g.2 ≤ 11)%Z) q.

(** ** Editing a plate ([set_well], [clear_well], [interactive_edit])

    A cell that holds NaN is an absent key: storing NaN removes the key. *)
Definition put_cell (grid : gmap (string * Z) string) (key : string * Z)
    (v : option string) : gmap (string * Z) string :=
  match v with
  | Some x => <[key := x]> grid
  | None => delete key grid
  end.

(** [set_well]: the plate after the call and the Boolean it returns. *)
Definition set_well (self : PlateLayout) (row_str : string) (col_int : Z)
    (value type_str : option string) : PlateLayout * bool :=
  if decide (row_str ∈ rows self ∧ col_int ∈ cols self) then
    (mkPlateLayout (rows self) (cols self)
       (put_cell (layout_grid self) (row_str, col_int) value)
       (put_cell (type_grid self) (row_str, col_int) type_str)
       (standard_concentrations self), true)
  else (self, false).

Definition clear_well (self : PlateLayout) (row_str : string) (col_int : Z)
    : PlateLayout * bool :=
  set_well self row_str col_int None None.

(** The commands of [interactive_edit] once their coordinates are parsed
    ([view], [change <Src> to <Dst>], [exclude <Well>], [set <Well> <Name>]);
    a line that does not parse changes nothing and is not a command here. *)
Inductive command :=
  | View
  | Change (r_src : string) (c_src : Z) (r_dst : string) (c_dst : Z)
  | Exclude (r : string) (c : Z)
  | SetWell (r : string) (c : Z) (val : string).

(** One command. In [change], reading a source that is empty (NaN) only
    prints a message and reading one that is not in the frame raises
    KeyError, which the handler catches: the plate stays as it is in both
    cases. *)
Definition apply_command (layout : PlateLayout) (cmd : command) : PlateLayout :=
  match cmd with
  | View => layout
  | Change r_src c_src r_dst c_dst =>
      match layout_grid layout !! (r_src, c_src) with
      | None => layout
      | Some val =>
          let type_val := type_grid layout !! (r_src, c_src) in
          let moved := (set_well layout r_dst c_dst (Some val) type_val).1 in
          (clear_well moved r_src c_src).1
      end
  | Exclude r c => (clear_well layout r c).1
  | SetWell r c val => (set_well layout r c (Some val) (Some "Sample")).1
  end.

(** The command loop, over the commands entered before [done]. *)
Definition interactive_edit (layout : PlateLayout) (cmds : list command)
    : PlateLayout :=
  foldl apply_command layout cmds.

(** [on_plate self r c]: the test of [set_well]. *)
Definition on_plate (self : PlateLayout) (r : string) (c : Z) : Prop :=
  r ∈ rows self ∧ c ∈ cols self.

(** ** Export and import ([to_csv], [from_csv])

    A record of the table is (Row, Col, Type, ID); an empty CSV field is
    NaN, here [None]. The two functions are modelled up to the table: what
    [to_csv] hands to [DataFrame.to_csv] and what [from_csv] does with the
    rows [read_csv] returns. The text of the file is not modelled. *)
Abbreviation csv_record := (string * Z * option string * option string)%type.

Definition record_well (rec : csv_record) : string * Z := (rec.1.1.1, rec.1.1.2).

(** The list [data] of [to_csv]: the wells of the plate that hold an ID,
    rows outermost. *)
Definition to_csv_rows (self : PlateLayout) : list csv_record :=
  r ← rows self; c ← cols self;
  match layout_grid self !! (r, c) with
  | Some val => [(r, c, type_grid self !! (r, c), Some val)]
  | None => []
  end.

(** [from_csv] on the rows of the table read. *)
Definition from_csv_rows (df : list csv_record) : result PlateLayout :=
  layout ← PlateLayout__init__ [];
  Ok (foldl (λ layout rec,
               let '(r, c, t, i) := rec in (set_well layout r c i t).1)
        layout df).

(** ** [_finalize_leftovers] *)

(** [sub.index(x)], guarded by [x in sub]: [None] when [x] is not in [sub]. *)
Fixpoint index_of (x : string) (sub : list string) : option nat :=
  match sub with
  | [] => None
  | y :: sub' => if decide (y = x) then Some 0 else S <$> index_of x sub'
  end.

(** The loop over [all_groups], entered with the flag [found]. *)
Fixpoint finalize_from (found : bool) (all_groups : list group)
    (failed_s_id : string) : list group :=
  match all_groups with
  | [] => []
  | (sub, reps) :: all_groups' =>
      if found then (sub, reps) :: finalize_from true all_groups' failed_s_id
      else
        match index_of failed_s_id sub with
        | Some idx => (drop idx sub, reps) :: finalize_from true all_groups' failed_s_id
        | None => finalize_from false all_groups' failed_s_id
        end
  end.

Definition _finalize_leftovers (current_leftovers all_groups : list group)
    (failed_s_id : string) : list group :=
  finalize_from false all_groups failed_s_id.

(** ** The group generator of [get_user_config]

    An experiment is the three answers once read: the subject names (split
    at commas, stripped, empty names dropped), the number of timepoints and
    the number of replicates. *)
Definition timepoint_id (subj : string) (n_points t : Z) : string :=
  if decide (1 < n_points)%Z then subj +:+ "_t" +:+ pretty t else subj.

(** [for t in range(n_points - 1, -1, -1)]: the timepoints newest first. *)
Definition subject_timepoints (subj : string) (n_points : Z) : list string :=
  timepoint_id subj n_points <$> reverse (seqZ 0 n_points).

(** The groups of experiment number [i] (from 0). *)
Definition experiment_groups (i : nat) (subjects : list string)
    (n_points reps : Z) : list group :=
  let subjects :=
    match subjects with
    | [] => ["Exp" +:+ pretty (i + 1) +:+ "_Sample"]
    | _ :: _ => subjects
    end in
  (λ subj, (subject_timepoints subj n_points, reps)) <$> subjects.

Definition get_user_config (experiments : list (list string * Z * Z))
    : list group :=
  mjoin (imap (λ i e, let '(subjects, n_points, reps) := e in
                      experiment_groups i subjects n_points reps) experiments).

(** ** [fill_cells] of [designer_core.py]

    A cell of the update dictionary: the type is always 'EXP'. *)
Record exp_cell := ExpCell {
  cell_exp : Z;
  cell_subj : Z;
  cell_samp : Z;
  cell_rep : Z
}.

(** The inner loop: one sample along [line], [rep_count] from 1. *)
Definition fill_line (key_of : Z → Z * Z) (line : list Z)
    (current_exp current_subj s_id : Z) (updates : gmap (Z * Z) exp_cell)
    : gmap (Z * Z) exp_cell * Z :=
  foldl (λ st x,
           (<[key_of x := ExpCell current_exp current_subj s_id st.2]> st.1,
            (st.2 + 1)%Z))
    (updates, 1%Z) line.

(** The outer loop: one sample per element of [outer], ids counted up. *)
Definition fill_block (key_of : Z → Z → Z * Z) (outer inner : list Z)
    (current_exp current_subj next_sample_id : Z)
    : gmap (Z * Z) exp_cell * Z :=
  foldl (λ st x,
           ((fill_line (key_of x) inner current_exp current_subj st.2 st.1).1,
            (st.2 + 1)%Z))
    (∅, next_sample_id) outer.

(** Keys are (column, row). *)
Definition fill_cells (c1 r1 c2 r2 current_exp current_subj next_sample_id : Z)
    (orientation : string) : gmap (Z * Z) exp_cell * Z :=
  let '(c1, c2) := (c1 `min` c2, c1 `max` c2)%Z in
  let '(r1, r2) := (r1 `min` r2, r1 `max` r2)%Z in
  if decide (orientation = "vertical") then
    fill_block (λ c r, (c, r)) (seqZ c1 (c2 + 1 - c1)) (seqZ r1 (r2 + 1 - r1))
      current_exp current_subj next_sample_id
  else
    fill_block (λ r c, (c, r)) (seqZ r1 (r2 + 1 - r1)) (seqZ c1 (c2 + 1 - c1))
      current_exp current_subj next_sample_id.

(** The calls below are unfolded by hand where a proof needs their body. *)
Arguments PlateLayout__init__ : simpl never.
Arguments assign_samples : simpl never.
Arguments schedule : simpl never.
Arguments valid_slots_of : simpl never.

(** A plate with one standard in column 1, a queue for it, and the plate
    after the queue was assigned from column 2. *)
Definition seeded_plate : PlateLayout :=
  write_well (mkPlateLayout plate_rows (seqZ 1 12) ∅ ∅ default_standards)
    "A" 1 "STD_6.4" "Standard".

Definition seeded_queue : list group := [(["p"; "q"], 2%Z)].

Definition seeded_plate_after : PlateLayout :=
  _render_assignments_linear seeded_plate
    [("p", "A", 2%Z); ("p", "A", 3%Z); ("q", "A", 4%Z); ("q", "A", 5%Z)].

(** ** Basic facts about the scan helpers *)

Lemma count_row_le r slots : count_row r slots ≤ length slots.
Proof.
  induction slots as [|[r' c] slots IH]; simpl; [lia|].
  case_decide; lia.
Qed.

Lemma count_row_Forall r slots :
  Forall (λ w : well, w.1 = r) (take (count_row r slots) slots).
Proof.
  induction slots as [|[r' c] slots IH]; simpl; [constructor|].
  case_decide; simpl; [|constructor].
  constructor; [done|apply IH].
Qed.

Lemma count_row_head r c slots : 1 ≤ count_row r ((r, c) :: slots).
Proof. simpl. rewrite decide_True by done. lia. Qed.

Lemma first_fit_Some q x i :
  first_fit q x = Some i →
  ∃ sub reps, q !! i = Some (sub, reps) ∧ (reps ≤ x)%Z ∧
    ∀ j g, j < i → q !! j = Some g → (x < g.2)%Z.
Proof.
  revert i. induction q as [|[sub reps] q IH]; intros i; simpl; [done|].
  case_decide as Hfit.
  - intros [= <-]. exists sub, reps. split_and!; [done|done|]. intros; lia.
  - destruct (first_fit q x) as [i'|] eqn:E; simpl; [|done].
    intros [= <-]. destruct (IH i' eq_refl) as (sub' & reps' & Hl & Hle & Hmin).
    exists sub', reps'. split_and!; [done|done|].
    intros [|j] g Hj; simpl.
    + intros [= <-]. simpl. lia.
    + intros Hg. apply (Hmin j); [lia|done].
Qed.

Lemma first_fit_None q x :
  first_fit q x = None ↔ Forall (λ g : group, (x < g.2)%Z) q.
Proof.
  induction q as [|[sub reps] q IH]; simpl.
  - split; [constructor|done].
  - case_decide as Hfit.
    + split; [done|]. intros H%Forall_cons_1. simpl in H. lia.
    + destruct (first_fit q x) eqn:E; simpl.
      * split; [done|]. intros [_ H]%Forall_cons_1. apply IH in H. done.
      * split; [|done]. intros _. constructor; [simpl; lia|by apply IH].
Qed.

Lemma first_fit_least q x i sub reps :
  q !! i = Some (sub, reps) → (reps ≤ x)%Z →
  (∀ j g, j < i → q !! j = Some g → (x < g.2)%Z) →
  first_fit q x = Some i.
Proof.
  revert i. induction q as [|[sub' reps'] q IH]; intros i; [done|].
  destruct i as [|i]; simpl.
  - intros [= -> ->] Hle _. by rewrite decide_True.
  - intros Hl Hle Hmin.
    pose proof (Hmin 0 (sub', reps') ltac:(lia) eq_refl) as H0. simpl in H0.
    rewrite decide_False by lia.
    rewrite (IH i); [done|done|done|].
    intros j g Hj Hg. apply (Hmin (S j)); [lia|done].
Qed.

Lemma tps_of_facts len sir reps :
  (1 ≤ reps)%Z → (reps ≤ Z.of_nat sir)%Z →
  tps_of len sir reps ≤ len ∧
  tps_of len sir reps * Z.to_nat reps ≤ sir ∧
  (len = 0 ∨ 1 ≤ tps_of len sir reps).
Proof.
  intros H1 H2. unfold tps_of.
  assert (0 < Z.of_nat sir `div` reps)%Z as Hpos by (apply Z.div_str_pos; lia).
  assert (reps * (Z.of_nat sir `div` reps) ≤ Z.of_nat sir)%Z as Hmul
    by (apply Z.mul_div_le; lia).
  split_and!; [lia| |lia].
  apply Nat2Z.inj_le. rewrite Nat2Z.inj_mul, !Z2Nat.id by lia.
  etrans; [|exact Hmul]. rewrite (Z.mul_comm reps).
  apply Z.mul_le_mono_nonneg_r; lia.
Qed.

Lemma py_slice_from_nat {A} (l : list A) (n : nat) :
  py_slice_from l (Z.of_nat n) = drop n l.
Proof.
  unfold py_slice_from. rewrite decide_False by lia. by rewrite Nat2Z.id.
Qed.

(** ** Closed forms of the placing loops *)

Lemma place_reps_ok slots s idx j n :
  idx + j + n ≤ length slots →
  place_reps slots s idx (seq j n)
  = Ok ((λ w : well, (s, w.1, w.2)) <$> take n (drop (idx + j) slots)).
Proof.
  revert j. induction n as [|n IH]; intros j Hle; simpl.
  - done.
  - destruct (lookup_lt_is_Some_2 slots (idx + j)) as [[r c] Hw]; [lia|].
    rewrite Hw, IH by lia. simpl.
    rewrite (drop_S _ _ _ Hw). simpl. by rewrite Nat.add_succ_r.
Qed.

Lemma place_members_ok slots ms reps idx fa :
  idx + length ms * Z.to_nat reps ≤ length slots →
  place_members slots ms reps idx fa
  = Ok (idx + length ms * Z.to_nat reps,
        fa ++ (placements ms (Z.to_nat reps) idx ≫= block slots)).
Proof.
  revert idx fa. induction ms as [|s ms IH]; intros idx fa Hle; simpl.
  - by rewrite Nat.add_0_r, app_nil_r.
  - simpl in Hle. rewrite place_reps_ok by lia. simpl.
    rewrite IH by lia. rewrite <-(assoc_L (++)), Nat.add_0_r.
    do 2 f_equal. lia.
Qed.

Lemma placements_length ms n idx : length (placements ms n idx) = length ms.
Proof. revert idx. induction ms; intros; simpl; [done|by rewrite IHms]. Qed.

Lemma placements_tag ms n idx :
  tag <$> placements ms n idx = (λ s, (s, Z.of_nat n)) <$> ms.
Proof. revert idx. induction ms; intros; simpl; [done|by rewrite IHms]. Qed.

Lemma placements_Forall ms n idx (P : placement → Prop) :
  (∀ s j, j < length ms → P (Placement s n (idx + j * n))) →
  Forall P (placements ms n idx).
Proof.
  revert idx. induction ms as [|s ms IH]; intros idx HP; simpl; constructor.
  - specialize (HP s 0). simpl in HP. rewrite Nat.add_0_r in HP. apply HP. lia.
  - apply IH. intros s' j Hj. specialize (HP s' (S j)). simpl in HP.
    replace (idx + n + j * n) with (idx + (n + j * n)) by lia. apply HP. lia.
Qed.

(** ** One pass of the scheduler loop, case by case *)

Lemma row_span slots idx r c :
  slots !! idx = Some (r, c) →
  1 ≤ count_row r (drop idx slots) ∧
  idx + count_row r (drop idx slots) ≤ length slots ∧
  Forall (λ w : well, w.1 = r)
    (take (count_row r (drop idx slots)) (drop idx slots)).
Proof.
  intros Hw. split_and!.
  - rewrite (drop_S _ _ _ Hw). apply count_row_head.
  - pose proof (count_row_le r (drop idx slots)) as H.
    rewrite length_drop in H. apply lookup_lt_Some in Hw. lia.
  - apply count_row_Forall.
Qed.

Lemma sched_step_exit slots st :
  length slots ≤ slot_idx st ∨ queue st = [] →
  sched_step slots st = Ok None.
Proof.
  intros H. unfold sched_step. case_decide; [|done].
  destruct H as [H| ->]; [lia|done].
Qed.

Lemma sched_step_nofit slots st r c :
  slots !! slot_idx st = Some (r, c) →
  queue st ≠ [] →
  first_fit (queue st) (Z.of_nat (count_row r (drop (slot_idx st) slots))) = None →
  sched_step slots st
  = Ok (Some (Sched (slot_idx st + count_row r (drop (slot_idx st) slots))
                (queue st) (final_assignments st))).
Proof.
  intros Hw Hq Hnone. unfold sched_step.
  rewrite decide_True by (by eapply lookup_lt_Some).
  destruct (queue st) eqn:E; [done|]. rewrite <-E in *. rewrite Hw. by rewrite Hnone.
Qed.

Lemma sched_step_zero slots st r c i sub :
  slots !! slot_idx st = Some (r, c) →
  first_fit (queue st) (Z.of_nat (count_row r (drop (slot_idx st) slots))) = Some i →
  queue st !! i = Some (sub, 0%Z) →
  sched_step slots st = Raise ZeroDivisionError.
Proof.
  intros Hw Hfit Hg. unfold sched_step.
  rewrite decide_True by (by eapply lookup_lt_Some).
  destruct (queue st) eqn:E; [done|]. rewrite <-E in *. rewrite Hw. by rewrite Hfit, Hg.
Qed.

Lemma sched_step_fit slots st r c i sub reps :
  slots !! slot_idx st = Some (r, c) →
  first_fit (queue st) (Z.of_nat (count_row r (drop (slot_idx st) slots))) = Some i →
  queue st !! i = Some (sub, reps) →
  (1 ≤ reps)%Z →
  let tps := tps_of (length sub) (count_row r (drop (slot_idx st) slots)) reps in
  sched_step slots st
  = Ok (Some (Sched (slot_idx st + tps * Z.to_nat reps)
                (if decide (tps < length sub)
                 then (drop tps sub, reps) :: delete i (queue st)
                 else delete i (queue st))
                (final_assignments st
                 ++ (placements (take tps sub) (Z.to_nat reps) (slot_idx st)
                       ≫= block slots)))).
Proof.
  intros Hw Hfit Hg Hpos tps.
  destruct (row_span _ _ _ _ Hw) as (Hsir & Hend & _).
  destruct (first_fit_Some _ _ _ Hfit) as (sub' & reps' & Hg' & Hle & _).
  rewrite Hg in Hg'. injection Hg' as <- <-.
  destruct (tps_of_facts (length sub) _ reps Hpos Hle) as (Hlen & Hmul & _).
  fold tps in Hlen, Hmul.
  unfold sched_step.
  rewrite decide_True by (by eapply lookup_lt_Some).
  destruct (queue st) eqn:E; [done|]. rewrite <-E in *. rewrite Hw, Hfit, Hg.
  rewrite decide_False by lia. fold (tps_of (length sub)
    (count_row r (drop (slot_idx st) slots)) reps). fold tps.
  assert (length (take tps sub) = tps) as Htk by (rewrite length_take; lia).
  rewrite place_members_ok by (rewrite Htk; lia). simpl. rewrite Htk.
  assert (Z.of_nat (length sub)
          `min` (Z.of_nat (count_row r (drop (slot_idx st) slots)) `div` reps)
          = Z.of_nat tps)%Z as ->
    by (unfold tps, tps_of; rewrite Z2Nat.id; [done|];
        apply Z.min_glb; [lia|apply Z.div_pos; lia]).
  rewrite py_slice_from_nat.
  do 3 f_equal. repeat case_decide; done || lia.
Qed.

Lemma sched_step_neg slots st r c i sub reps :
  slots !! slot_idx st = Some (r, c) →
  first_fit (queue st) (Z.of_nat (count_row r (drop (slot_idx st) slots))) = Some i →
  queue st !! i = Some (sub, reps) →
  (reps < 0)%Z →
  ∃ sub', sub' `suffix_of` sub ∧
  sched_step slots st
  = Ok (Some (Sched (slot_idx st) ((sub', reps) :: delete i (queue st))
                (final_assignments st))).
Proof.
  intros Hw Hfit Hg Hneg.
  destruct (row_span _ _ _ _ Hw) as (Hsir & Hend & _).
  set (sir := count_row r (drop (slot_idx st) slots)) in *.
  assert (Z.of_nat sir `div` reps < 0)%Z as Hq
    by (pose proof (Z.div_mod (Z.of_nat sir) reps ltac:(lia));
        pose proof (Z.mod_neg_bound (Z.of_nat sir) reps ltac:(lia)); nia).
  exists (py_slice_from sub (Z.of_nat (length sub) `min` (Z.of_nat sir `div` reps))%Z).
  split.
  - unfold py_slice_from. case_decide; apply suffix_drop.
  - unfold sched_step.
    rewrite decide_True by (by eapply lookup_lt_Some).
    destruct (queue st) eqn:E; [done|]. rewrite <-E in *. rewrite Hw. fold sir. rewrite Hfit, Hg.
    rewrite decide_False by lia.
    rewrite Z2Nat.nonpos by lia. rewrite take_0. simpl.
    rewrite decide_True by lia. done.
Qed.

(** Every pass that goes round again is one of three: nothing fits and the
    cursor jumps to the next row; a group of negative replicate count is
    popped and put back; a group of positive replicate count is placed. *)
Lemma sched_step_cases slots st st' :
  sched_step slots st = Ok (Some st') →
  ∃ r c, slots !! slot_idx st = Some (r, c) ∧ queue st ≠ [] ∧
    let sir := count_row r (drop (slot_idx st) slots) in
    (first_fit (queue st) (Z.of_nat sir) = None ∧
     st' = Sched (slot_idx st + sir) (queue st) (final_assignments st))
    ∨ (∃ i sub reps sub',
        first_fit (queue st) (Z.of_nat sir) = Some i ∧
        queue st !! i = Some (sub, reps) ∧ (reps < 0)%Z ∧
        sub' `suffix_of` sub ∧
        st' = Sched (slot_idx st) ((sub', reps) :: delete i (queue st))
                (final_assignments st))
    ∨ (∃ i sub reps,
        first_fit (queue st) (Z.of_nat sir) = Some i ∧
        queue st !! i = Some (sub, reps) ∧ (1 ≤ reps)%Z ∧
        (reps ≤ Z.of_nat sir)%Z ∧
        st' = let tps := tps_of (length sub) sir reps in
              Sched (slot_idx st + tps * Z.to_nat reps)
                (if decide (tps < length sub)
                 then (drop tps sub, reps) :: delete i (queue st)
                 else delete i (queue st))
                (final_assignments st
                 ++ (placements (take tps sub) (Z.to_nat reps) (slot_idx st)
                       ≫= block slots))).
Proof.
  intros Hstep.
  destruct (decide (slot_idx st < length slots)) as [Hlt|Hge];
    [|rewrite sched_step_exit in Hstep by lia; done].
  destruct (decide (queue st = [])) as [Hq|Hq];
    [rewrite sched_step_exit in Hstep by auto; done|].
  destruct (lookup_lt_is_Some_2 _ _ Hlt) as [[r c] Hw].
  exists r, c. split_and!; [done|done|]. intros sir.
  destruct (first_fit (queue st) (Z.of_nat sir)) as [i|] eqn:Hfit.
  - destruct (first_fit_Some _ _ _ Hfit) as (sub & reps & Hg & Hle & _).
    destruct (Z.lt_trichotomy reps 0) as [Hneg|[->|Hpos]].
    + destruct (sched_step_neg _ _ _ _ _ _ _ Hw Hfit Hg Hneg) as (sub' & Hsuf & E).
      rewrite E in Hstep. injection Hstep as <-.
      right; left. by exists i, sub, reps, sub'.
    + by rewrite (sched_step_zero _ _ _ _ _ _ Hw Hfit Hg) in Hstep.
    + rewrite (sched_step_fit _ _ _ _ _ _ _ Hw Hfit Hg) in Hstep by lia.
      injection Hstep as <-. right; right. exists i, sub, reps.
      split_and!; [done|done|lia|done|done].
  - rewrite (sched_step_nofit _ _ _ _ Hw Hq Hfit) in Hstep.
    injection Hstep as <-. by left.
Qed.

(** ** Members of a queue *)

Lemma tagged_cons sub reps q :
  tagged ((sub, reps) :: q) = ((λ s, (s, reps)) <$> sub) ++ tagged q.
Proof. done. Qed.

Lemma elem_of_tagged x q :
  x ∈ tagged q ↔ ∃ g : group, g ∈ q ∧ x.1 ∈ g.1 ∧ x.2 = g.2.
Proof.
  unfold tagged. rewrite list_elem_of_bind. split.
  - intros (g & Hx & Hg). apply list_elem_of_fmap in Hx as (s & -> & Hs).
    by exists g.
  - intros (g & Hg & Hs & Hr). exists g. split; [|done].
    apply list_elem_of_fmap. exists x.1. split; [|done].
    destruct x; simpl in *; by subst.
Qed.

Lemma tagged_delete q i sub reps :
  q !! i = Some (sub, reps) →
  tagged q ≡ₚ ((λ s, (s, reps)) <$> sub) ++ tagged (delete i q).
Proof.
  intros Hg. rewrite <-tagged_cons. unfold tagged.
  by rewrite (delete_Permutation q i _ Hg) at 1.
Qed.

Lemma sample_ids_tagged q : sample_ids q = fst <$> tagged q.
Proof.
  unfold sample_ids, tagged. induction q as [|[sub reps] q IH]; [done|].
  rewrite !bind_cons, fmap_app, <-IH. f_equal. simpl.
  rewrite <-list_fmap_compose. by rewrite <-(list_fmap_id sub) at 1.
Qed.

Lemma Forall_take_drop_sub {A} (P : A → Prop) (l : list A) a m k n :
  Forall P (take m (drop a l)) → k + n ≤ m →
  Forall P (take n (drop (a + k) l)).
Proof.
  rewrite !Forall_lookup. intros H Hle i x Hx.
  apply lookup_take_Some in Hx as [Hx Hi]. rewrite lookup_drop in Hx.
  apply (H (k + i)). rewrite lookup_take_Some, lookup_drop. split; [|lia].
  by rewrite <-Hx, Nat.add_assoc.
Qed.

(** ** What one pass preserves *)

Lemma tagged_popped_subseteq (q : list group) i sub reps sub' x :
  q !! i = Some (sub, reps) → sub' `suffix_of` sub →
  x ∈ tagged ((sub', reps) :: delete i q) → x ∈ tagged q.
Proof.
  intros Hg Hsuf. rewrite !elem_of_tagged.
  intros (g & Hin & Hs & Hr). apply elem_of_cons in Hin as [->|Hin].
  - exists (sub, reps). split_and!; [by eapply list_elem_of_lookup_2| |done].
    simpl in *. by eapply elem_of_suffix.
  - exists g. split_and!; [by eapply list_elem_of_delete_inv|done|done].
Qed.

Lemma placements_in_one_row slots idx r c sub n tps :
  slots !! idx = Some (r, c) →
  1 ≤ n → tps * n ≤ count_row r (drop idx slots) →
  length sub = tps →
  Forall (in_one_row slots) (placements sub n idx).
Proof.
  intros Hw Hn Hmul Hlen.
  destruct (row_span _ _ _ _ Hw) as (_ & Hend & Hrow).
  apply placements_Forall. intros s j Hj. unfold in_one_row; simpl.
  assert (j * n + n ≤ tps * n) by nia.
  split_and!; [done|lia|]. exists r.
  eapply Forall_take_drop_sub; [exact Hrow|lia].
Qed.

Lemma sched_next_inv slots st st' :
  sched_next slots st st' →
  slot_idx st < length slots ∧
  ∃ pl_new, ∀ q0 pl,
    (placed_inv slots q0 st pl → placed_inv slots q0 st' (pl ++ pl_new)) ∧
    (valid_queue (queue st) →
       valid_queue (queue st') ∧
       (conserved q0 st pl → conserved q0 st' (pl ++ pl_new)) ∧
       ((slot_idx st < slot_idx st' ∧ length (queue st') ≤ length (queue st))
        ∨ (slot_idx st' = slot_idx st ∧ length (queue st') < length (queue st)))).
Proof.
  intros Hstep. apply sched_step_cases in Hstep as (r & c & Hw & Hq & Hcases).
  split; [by eapply lookup_lt_Some|].
  destruct (row_span _ _ _ _ Hw) as (Hsir & Hend & Hrow).
  destruct Hcases as [[Hfit ->]|[(i & sub & reps & sub' & Hfit & Hg & Hneg & Hsuf & ->)
    |(i & sub & reps & Hfit & Hg & Hpos & Hle & ->)]].
  - (* nothing fits: the cursor jumps to the end of the row *)
    exists []. intros q0 pl. rewrite app_nil_r. split; [done|].
    intros Hv. split_and!; [done|done|]. left. simpl. lia.
  - (* a negative replicate count: the group goes back to the front *)
    exists []. intros q0 pl. rewrite app_nil_r. split.
    + intros (Hfa & Hrows & Htags & Hsub). split_and!; [done|done|done|].
      simpl. intros x Hx. apply Hsub. by eapply tagged_popped_subseteq.
    + intros Hv. eapply Forall_lookup_1 in Hv; [|exact Hg]. simpl in Hv. lia.
  - (* a group is placed, whole or in part *)
    set (sir := count_row r (drop (slot_idx st) slots)) in *.
    destruct (tps_of_facts (length sub) sir reps Hpos Hle) as (Hlen & Hmul & Htps).
    set (tps := tps_of (length sub) sir reps) in *.
    assert (length (take tps sub) = tps) as Htk by (rewrite length_take; lia).
    assert (Z.of_nat (Z.to_nat reps) = reps) as Hn by lia.
    exists (placements (take tps sub) (Z.to_nat reps) (slot_idx st)).
    intros q0 pl. simpl. split.
    + intros (Hfa & Hrows & Htags & Hsub). split_and!; simpl.
      * by rewrite bind_app, Hfa.
      * apply Forall_app. split; [done|].
        eapply placements_in_one_row; [done|lia|done|done].
      * apply Forall_app. split; [done|].
        apply (proj1 (Forall_fmap tag (λ x, x ∈ tagged q0) _)).
        rewrite placements_tag, Hn.
        apply Forall_forall. intros x Hx. apply Hsub, elem_of_tagged.
        apply list_elem_of_fmap in Hx as (s & -> & Hs).
        exists (sub, reps). split_and!; [by eapply list_elem_of_lookup_2| |done].
        simpl. by eapply subseteq_take.
      * intros x Hx. apply Hsub. case_decide.
        -- eapply (tagged_popped_subseteq _ _ _ _ _ _ Hg); [|exact Hx].
           apply suffix_drop.
        -- apply elem_of_tagged in Hx as (g & Hin & ? & ?). apply elem_of_tagged.
           exists g. split_and!; [by eapply list_elem_of_delete_inv|done|done].
    + intros Hv.
      assert (valid_queue (delete i (queue st))) as Hvd
        by (apply Forall_forall; intros g Hin%list_elem_of_delete_inv;
            revert g Hin; by apply Forall_forall).
      assert (length (delete i (queue st)) = length (queue st) - 1) as Hld
        by (apply length_delete; eauto).
      assert (0 < length (queue st)) as Hlq by (apply lookup_lt_Some in Hg; lia).
      split_and!.
      * case_decide; [|done]. constructor; [simpl; lia|done].
      * unfold conserved. simpl. intros Hc. rewrite <-Hc, fmap_app, placements_tag, Hn.
        rewrite (tagged_delete _ _ _ _ Hg), <-(assoc_L (++)).
        apply Permutation_app_head.
        case_decide.
        -- by rewrite tagged_cons, (assoc_L (++)), <-fmap_app, take_drop.
        -- by rewrite take_ge by lia.
      * case_decide; simpl.
        -- left. split; [nia|lia].
        -- destruct Htps as [Hz|Hz]; [right; lia|left; split; [nia|lia]].
Qed.

(** ** The loop as iterated passes *)

Lemma sched_loop_nsteps slots n st st' :
  nsteps (sched_next slots) n st st' →
  sched_step slots st' = Ok None →
  ∀ fuel, n < fuel →
    sched_loop fuel slots st = Ok (final_assignments st', queue st').
Proof.
  induction 1 as [st|n st st1 st' Hstep _ IH]; intros Hexit fuel Hfuel.
  - destruct fuel as [|fuel]; [lia|]. simpl. by rewrite Hexit.
  - destruct fuel as [|fuel]; [lia|]. simpl. rewrite Hstep. apply IH; [done|lia].
Qed.

Lemma sched_loop_Ok fuel slots st fa lo :
  sched_loop fuel slots st = Ok (fa, lo) →
  ∃ n st', n < fuel ∧ nsteps (sched_next slots) n st st' ∧
    sched_step slots st' = Ok None ∧
    final_assignments st' = fa ∧ queue st' = lo.
Proof.
  revert st. induction fuel as [|fuel IH]; intros st; simpl; [done|].
  destruct (sched_step slots st) as [[st1|]|e|] eqn:Hstep; [| |done|done].
  - intros (n & st' & Hn & Hsteps & Hexit & Hfa & Hlo)%IH.
    exists (S n), st'. split_and!; [lia| |done|done|done].
    by eapply nsteps_l.
  - intros [= <- <-]. exists 0, st. split_and!; [lia|constructor|done|done|done].
Qed.

Lemma sched_steps_inv slots st st' :
  rtc (sched_next slots) st st' →
  ∃ pl_new, ∀ q0 pl,
    (placed_inv slots q0 st pl → placed_inv slots q0 st' (pl ++ pl_new)) ∧
    (valid_queue (queue st) →
       valid_queue (queue st') ∧
       (conserved q0 st pl → conserved q0 st' (pl ++ pl_new))).
Proof.
  induction 1 as [st|st st1 st' Hstep _ (pl2 & IH)].
  - exists []. intros q0 pl. by rewrite app_nil_r.
  - destruct (sched_next_inv _ _ _ Hstep) as (_ & pl1 & H1).
    exists (pl1 ++ pl2). intros q0 pl. rewrite (assoc_L (++)).
    destruct (H1 q0 pl) as (Hp1 & Hv1). destruct (IH q0 (pl ++ pl1)) as (Hp2 & Hv2).
    split; [auto|]. intros Hv. destruct (Hv1 Hv) as (Hv' & Hc1 & _).
    destruct (Hv2 Hv') as (Hv'' & Hc2). auto.
Qed.

(** With replicate counts of at least 1 a pass raises nothing. *)
Lemma sched_step_total slots st :
  valid_queue (queue st) → ∃ o, sched_step slots st = Ok o.
Proof.
  intros Hv.
  destruct (decide (slot_idx st < length slots)) as [Hlt|Hge];
    [|exists None; apply sched_step_exit; lia].
  destruct (decide (queue st = [])) as [Hq|Hq];
    [exists None; apply sched_step_exit; auto|].
  destruct (lookup_lt_is_Some_2 _ _ Hlt) as [[r c] Hw].
  destruct (first_fit (queue st) (Z.of_nat (count_row r (drop (slot_idx st) slots))))
    as [i|] eqn:Hfit.
  - destruct (first_fit_Some _ _ _ Hfit) as (sub & reps & Hg & Hle & _).
    eexists. eapply sched_step_fit; [done|done|done|].
    eapply Forall_lookup_1 in Hv; [|exact Hg]. done.
  - eexists. by eapply sched_step_nofit.
Qed.

(** The loop exits after at most [len(valid_slots) - slot_idx + len(queue)]
    passes through its body. *)
Lemma sched_steps_bound slots m st :
  valid_queue (queue st) →
  (length slots - slot_idx st) + length (queue st) ≤ m →
  ∃ n st', n ≤ m ∧ nsteps (sched_next slots) n st st' ∧
    sched_step slots st' = Ok None.
Proof.
  revert st. induction m as [|m IH]; intros st Hv Hm.
  - exists 0, st. split_and!; [lia|constructor|]. apply sched_step_exit.
    destruct (queue st); [auto|simpl in Hm; lia].
  - destruct (sched_step_total slots st Hv) as [[st1|] Hstep].
    + destruct (sched_next_inv _ _ _ Hstep) as (Hlt & pl1 & H1).
      destruct (H1 [] []) as (_ & Hv1). destruct (Hv1 Hv) as (Hv' & _ & Hprog).
      destruct (IH st1 Hv') as (n & st' & Hn & Hsteps & Hexit); [lia|].
      exists (S n), st'. split_and!; [lia| |done]. by eapply nsteps_l.
    + exists 0, st. split_and!; [lia|constructor|done].
Qed.

Lemma placed_inv_init slots q : placed_inv slots q (Sched 0 q []) [].
Proof. split_and!; [done|constructor|constructor|done]. Qed.

Lemma conserved_init q : conserved q (Sched 0 q []) [].
Proof. by unfold conserved. Qed.

(** Whenever the loop returns, the assignments are the blocks of the
    members it placed. *)
Lemma sched_loop_placed fuel slots q fa lo :
  sched_loop fuel slots (Sched 0 q []) = Ok (fa, lo) →
  ∃ pl, fa = pl ≫= block slots ∧ Forall (in_one_row slots) pl ∧
    Forall (λ p, tag p ∈ tagged q) pl ∧
    (∀ x, x ∈ tagged lo → x ∈ tagged q).
Proof.
  intros (n & st' & _ & Hsteps & _ & <- & <-)%sched_loop_Ok.
  destruct (sched_steps_inv slots _ _ (rtc_nsteps_2 _ _ _ Hsteps)) as (pl & H).
  destruct (H q []) as (Hp & _). specialize (Hp (placed_inv_init slots q)).
  exists pl. apply Hp.
Qed.

(** On a valid queue the run returns, and nothing is lost. *)
Lemma schedule_spec slots q :
  valid_queue q →
  ∃ n st' pl,
    n ≤ length slots + length q ∧
    nsteps (sched_next slots) n (Sched 0 q []) st' ∧
    sched_step slots st' = Ok None ∧
    schedule slots q = Ok (final_assignments st', queue st') ∧
    placed_inv slots q st' pl ∧ conserved q st' pl ∧ valid_queue (queue st').
Proof.
  intros Hv.
  destruct (sched_steps_bound slots (length slots + length q) (Sched 0 q []))
    as (n & st' & Hn & Hsteps & Hexit); [done|simpl; lia|].
  destruct (sched_steps_inv slots _ _ (rtc_nsteps_2 _ _ _ Hsteps)) as (pl & H).
  destruct (H q []) as (Hp & Hc). destruct (Hc Hv) as (Hv' & Hc').
  exists n, st', pl. split_and!; [done|done|done| |auto using placed_inv_init|
    auto using conserved_init|done].
  unfold schedule. eapply sched_loop_nsteps; [done|done|lia].
Qed.

(** ** Blocks *)

Lemma block_length slots p :
  p_start p + p_reps p ≤ length slots → length (block slots p) = p_reps p.
Proof.
  intros H. unfold block. rewrite length_fmap, length_take, length_drop. lia.
Qed.

Lemma block_ids slots p :
  in_one_row slots p →
  assigned_id <$> block slots p = replicate (p_reps p) (p_id p).
Proof.
  intros (_ & Hle & _). rewrite <-(block_length slots p Hle) at 1.
  unfold block. rewrite <-list_fmap_compose, length_fmap. by apply const_fmap.
Qed.

Lemma blocks_ids slots pl :
  Forall (in_one_row slots) pl →
  assigned_id <$> (pl ≫= block slots)
  = pl ≫= (λ p, replicate (p_reps p) (p_id p)).
Proof.
  induction 1 as [|p pl Hp _ IH]; [done|].
  by rewrite !bind_cons, fmap_app, IH, block_ids.
Qed.

Lemma block_lookup slots p :
  in_one_row slots p →
  ∃ r, ∀ k, k < p_reps p →
    ∃ c, slots !! (p_start p + k) = Some (r, c) ∧
         block slots p !! k = Some (p_id p, r, c).
Proof.
  intros (_ & Hle & r & Hrow). exists r. intros k Hk.
  destruct (lookup_lt_is_Some_2 slots (p_start p + k)) as [[r' c] Hw]; [lia|].
  assert (take (p_reps p) (drop (p_start p) slots) !! k = Some (r', c)) as Hk'
    by (rewrite lookup_take_Some, lookup_drop; split; [done|lia]).
  eapply Forall_lookup_1 in Hrow; [|exact Hk']. simpl in Hrow. subst r'.
  exists c. split; [done|]. unfold block. by rewrite list_lookup_fmap, Hk'.
Qed.

Lemma assigned_in_slots slots pl a :
  a ∈ pl ≫= block slots → assigned_well a ∈ slots.
Proof.
  intros (p & Ha & _)%list_elem_of_bind. unfold block in Ha.
  apply list_elem_of_fmap in Ha as (w & -> & Hw). unfold assigned_well. simpl.
  apply subseteq_take, subseteq_drop in Hw. by destruct w.
Qed.

Lemma placed_ids_conserved q st pl :
  conserved q st pl → (p_id <$> pl) ++ sample_ids (queue st) ≡ₚ sample_ids q.
Proof.
  unfold conserved. intros Hc. rewrite !sample_ids_tagged, <-Hc, fmap_app.
  by rewrite <-list_fmap_compose.
Qed.

(** ** The passes allowed to [schedule] are enough *)

(** A group of negative replicate count at the head of the queue is popped
    and put back at every pass: the loop never exits. *)
Lemma sched_step_stuck slots st sub reps rest :
  slot_idx st < length slots →
  queue st = (sub, reps) :: rest → (reps < 0)%Z →
  ∃ sub', sched_step slots st
    = Ok (Some (Sched (slot_idx st) ((sub', reps) :: rest) (final_assignments st))).
Proof.
  intros Hlt Hq Hneg.
  destruct (lookup_lt_is_Some_2 _ _ Hlt) as [[r c] Hw].
  assert (first_fit (queue st)
            (Z.of_nat (count_row r (drop (slot_idx st) slots))) = Some 0) as Hfit
    by (rewrite Hq; simpl; rewrite decide_True by lia; done).
  destruct (sched_step_neg slots st r c 0 sub reps Hw Hfit) as (sub' & _ & Hstep);
    [by rewrite Hq|done|].
  exists sub'. rewrite Hstep, Hq. done.
Qed.

Lemma sched_loop_stuck slots fuel : ∀ st sub reps rest,
  slot_idx st < length slots →
  queue st = (sub, reps) :: rest → (reps < 0)%Z →
  sched_loop fuel slots st = OutOfFuel.
Proof.
  induction fuel as [|fuel IH]; intros st sub reps rest Hlt Hq Hneg; [done|].
  destruct (sched_step_stuck slots st sub reps rest Hlt Hq Hneg) as (sub' & Hstep).
  simpl. rewrite Hstep. by eapply IH.
Qed.

(** A pass that goes round again either brings the loop nearer to its exit
    or leaves a group of negative replicate count at the head of the
    queue. *)
Lemma sched_next_measure slots st st' :
  sched_next slots st st' →
  (length slots - slot_idx st') + length (queue st')
    < (length slots - slot_idx st) + length (queue st)
  ∨ (slot_idx st' < length slots ∧
     ∃ sub reps rest, queue st' = (sub, reps) :: rest ∧ (reps < 0)%Z).
Proof.
  intros Hstep. apply sched_step_cases in Hstep as (r & c & Hw & Hq & Hcases).
  destruct (row_span _ _ _ _ Hw) as (Hsir & Hend & _).
  pose proof (lookup_lt_Some _ _ _ Hw) as Hlt.
  destruct Hcases as [[Hfit ->]|[(i & sub & reps & sub' & Hfit & Hg & Hneg & Hsuf & ->)
    |(i & sub & reps & Hfit & Hg & Hpos & Hle & ->)]].
  - left. simpl. lia.
  - right. simpl. split; [done|]. by exists sub', reps, (delete i (queue st)).
  - left.
    destruct (tps_of_facts (length sub) _ reps Hpos Hle) as (Hlen & Hmul & Htps).
    assert (length (delete i (queue st)) = length (queue st) - 1) as Hld
      by (apply length_delete; eauto).
    assert (0 < length (queue st)) as Hlq by (apply lookup_lt_Some in Hg; lia).
    simpl. case_decide; simpl; [nia|].
    destruct Htps as [Hz|Hz]; [lia|nia].
Qed.

Lemma sched_loop_S fuel slots st :
  sched_loop (S fuel) slots st
  = match sched_step slots st with
    | Ok None => Ok (final_assignments st, queue st)
    | Ok (Some st') => sched_loop fuel slots st'
    | Raise e => Raise e
    | OutOfFuel => OutOfFuel
    end.
Proof. reflexivity. Qed.

Lemma sched_loop_fuel slots m : ∀ st fuel,
  (length slots - slot_idx st) + length (queue st) ≤ m → m < fuel →
  sched_loop fuel slots st = sched_loop (S m) slots st.
Proof.
  induction m as [|m IH]; intros st fuel Hm Hfuel;
    (destruct fuel as [|fuel]; [lia|]);
    rewrite (sched_loop_S fuel), (sched_loop_S _ slots st);
    destruct (sched_step slots st) as [[st'|]|e|] eqn:Hstep; try done.
  - destruct (sched_next_measure _ _ _ Hstep)
      as [Hdec|(Hlt & sub & reps & rest & Hq & Hneg)]; [lia|].
    by rewrite (sched_loop_stuck slots fuel st' sub reps rest).
  - destruct (sched_next_measure _ _ _ Hstep)
      as [Hdec|(Hlt & sub & reps & rest & Hq & Hneg)].
    + apply IH; lia.
    + rewrite (sched_loop_stuck slots fuel st' sub reps rest) by done.
      by rewrite (sched_loop_stuck slots (S m) st' sub reps rest).
Qed.

(** Giving the loop more passes than [schedule] does changes nothing: when
    [schedule] reports [OutOfFuel] the Python loop does not exit. *)
Lemma schedule_fuel_adequate slots q fuel :
  S (length slots + length q) ≤ fuel →
  sched_loop fuel slots (Sched 0 q []) = schedule slots q.
Proof.
  intros Hfuel. unfold schedule. apply sched_loop_fuel; simpl; lia.
Qed.

(** A queue whose only group has a negative replicate count: the call
    never returns. *)
Example negative_reps_diverge fuel :
  sched_loop fuel (valid_slots_of plate_rows 2) (Sched 0 [(["n"], (-1)%Z)] [])
  = OutOfFuel.
Proof.
  apply (sched_loop_stuck _ _ _ ["n"] (-1)%Z []); [|done|done].
  change (0 < 88). lia.
Qed.

(** A replicate count of 0 stops the call with a division by zero. *)
Example zero_reps_raise :
  schedule (valid_slots_of plate_rows 2) [(["z"], 0%Z)] = Raise ZeroDivisionError.
Proof. by vm_compute. Qed.

(** ** One run: conservation, rows, termination, queue order *)

(** C1 (as stated) fails when a sample id occurs twice in the input: the run
    on [dup_queue] places the first "a" on two wells and returns the second
    "a" among the leftovers, so the id is both placed and left over, and the
    ids read off the assignments and the leftovers are three where the input
    has two. *)
Lemma conservation_fails_on_repeated_id :
  schedule (valid_slots_of plate_rows 2) dup_queue
    = Ok ([("a", "A", 2%Z); ("a", "A", 3%Z)], [(["a"], 12%Z)])
  ∧ valid_queue dup_queue
  ∧ "a" ∈ (assigned_id <$> [("a", "A", 2%Z); ("a", "A", 3%Z)])
  ∧ "a" ∈ sample_ids [(["a"], 12%Z)]
  ∧ ¬ ((assigned_id <$> [("a", "A", 2%Z); ("a", "A", 3%Z)])
         ++ sample_ids [(["a"], 12%Z)] ≡ₚ sample_ids dup_queue).
Proof.
  split_and!.
  - by vm_compute.
  - repeat constructor; simpl; lia.
  - set_solver.
  - set_solver.
  - intros H%Permutation_length. done.
Qed.

(** C1 (amended): on a queue whose replicate counts are at least 1 the run
    returns; its assignments are the replicate blocks of the members it
    placed, and each placed member stands on exactly as many wells as the
    replicate count of its group: the placed members, each tagged with the
    length of its block, together with the members of the leftovers, each
    tagged with its group's replicate count, are a permutation of the
    tagged members of the input queue. Hence the ids of the placed members,
    counted once per member, together with the ids of the leftovers are a
    permutation of the ids of the input queue; and when the ids of the
    input queue are pairwise distinct, no placed id occurs in the
    leftovers. *)
Theorem assign_conserves_sample_ids slots q :
  valid_queue q →
  ∃ pl fa lo,
    schedule slots q = Ok (fa, lo) ∧
    fa = pl ≫= block slots ∧
    Forall (λ p, 1 ≤ p_reps p ∧ length (block slots p) = p_reps p ∧
                 tag p ∈ tagged q) pl ∧
    (tag <$> pl) ++ tagged lo ≡ₚ tagged q ∧
    assigned_id <$> fa = pl ≫= (λ p, replicate (p_reps p) (p_id p)) ∧
    (p_id <$> pl) ++ sample_ids lo ≡ₚ sample_ids q ∧
    (NoDup (sample_ids q) → ∀ s, s ∈ assigned_id <$> fa → s ∉ sample_ids lo).
Proof.
  intros Hv.
  destruct (schedule_spec slots q Hv)
    as (n & st' & pl & _ & _ & _ & Hrun & (Hfa & Hrows & Htags & _) & Hc & _).
  pose proof (placed_ids_conserved _ _ _ Hc) as Hperm.
  exists pl, (final_assignments st'), (queue st').
  split_and!; [done|done| |exact Hc| |done|].
  - apply Forall_forall. intros p Hp.
    pose proof (proj1 (Forall_forall _ _) Hrows p Hp) as (Hpos & Hle & _).
    pose proof (proj1 (Forall_forall _ _) Htags p Hp) as Htag.
    split_and!; [done|by apply block_length|done].
  - rewrite Hfa. by apply blocks_ids.
  - intros Hnd s Hs. rewrite <-Hperm in Hnd.
    apply NoDup_app in Hnd as (_ & Hdisj & _). apply Hdisj.
    rewrite Hfa, blocks_ids in Hs by done.
    apply list_elem_of_bind in Hs as (p & Hs & Hp).
    apply elem_of_replicate in Hs as [-> _]. by apply list_elem_of_fmap_2.
Qed.

Lemma assign_conserves_sample_ids_witness :
  ∃ pl fa lo,
    schedule (valid_slots_of plate_rows 2) [(["s1"; "s2"], 3%Z); (["t"], 12%Z)]
      = Ok (fa, lo) ∧
    fa = pl ≫= block (valid_slots_of plate_rows 2) ∧
    Forall (λ p, 1 ≤ p_reps p ∧
                 length (block (valid_slots_of plate_rows 2) p) = p_reps p ∧
                 tag p ∈ tagged [(["s1"; "s2"], 3%Z); (["t"], 12%Z)]) pl ∧
    (tag <$> pl) ++ tagged lo ≡ₚ tagged [(["s1"; "s2"], 3%Z); (["t"], 12%Z)] ∧
    assigned_id <$> fa = pl ≫= (λ p, replicate (p_reps p) (p_id p)) ∧
    (p_id <$> pl) ++ sample_ids lo
      ≡ₚ sample_ids [(["s1"; "s2"], 3%Z); (["t"], 12%Z)] ∧
    (NoDup (sample_ids [(["s1"; "s2"], 3%Z); (["t"], 12%Z)]) →
     ∀ s, s ∈ assigned_id <$> fa → s ∉ sample_ids lo).
Proof.
  apply (assign_conserves_sample_ids (valid_slots_of plate_rows 2)
           [(["s1"; "s2"], 3%Z); (["t"], 12%Z)]).
  repeat constructor; simpl; lia.
Defined.

(** The second group of [two_sixes] does not start on the five free wells
    of row A and run over into row B: it starts row B. *)
Example two_sixes_rows :
  schedule (valid_slots_of plate_rows 2) two_sixes
  = Ok ([("a", "A", 2); ("a", "A", 3); ("a", "A", 4); ("a", "A", 5);
         ("a", "A", 6); ("a", "A", 7);
         ("b", "B", 2); ("b", "B", 3); ("b", "B", 4); ("b", "B", 5);
         ("b", "B", 6); ("b", "B", 7)]%Z, []).
Proof. by vm_compute. Qed.

(** C2: whenever one run of the scheduler loop returns, whatever the slot
    sequence, the queue and the number of passes, its assignments split into
    one block per placed member; the member belongs to an input group and
    its block has that group's replicate count as its length; the k-th
    assignment of the block stands on slot number [p_start + k] of the slot
    sequence, and all these slots carry the same row label. *)
Theorem replicates_stay_in_row fuel slots q fa lo :
  sched_loop fuel slots (Sched 0 q []) = Ok (fa, lo) →
  ∃ pl, fa = pl ≫= block slots ∧
    Forall (λ p,
      tag p ∈ tagged q ∧ 1 ≤ p_reps p ∧
      length (block slots p) = p_reps p ∧
      ∃ r, ∀ k, k < p_reps p →
        ∃ c, slots !! (p_start p + k) = Some (r, c) ∧
             block slots p !! k = Some (p_id p, r, c)) pl.
Proof.
  intros (pl & Hfa & Hrows & Htags & _)%sched_loop_placed.
  exists pl. split; [done|].
  apply Forall_forall. intros p Hp.
  pose proof (proj1 (Forall_forall _ _) Hrows p Hp) as Hrow.
  pose proof (proj1 (Forall_forall _ _) Htags p Hp) as Htag.
  split_and!; [done|apply Hrow| |by apply block_lookup].
  apply block_length, Hrow.
Qed.

Lemma replicates_stay_in_row_witness :
  ∃ pl,
    [("a", "A", 2); ("a", "A", 3); ("a", "A", 4); ("a", "A", 5);
     ("a", "A", 6); ("a", "A", 7);
     ("b", "B", 2); ("b", "B", 3); ("b", "B", 4); ("b", "B", 5);
     ("b", "B", 6); ("b", "B", 7)]%Z
    = pl ≫= block (valid_slots_of plate_rows 2) ∧
    Forall (λ p,
      tag p ∈ tagged two_sixes ∧ 1 ≤ p_reps p ∧
      length (block (valid_slots_of plate_rows 2) p) = p_reps p ∧
      ∃ r, ∀ k, k < p_reps p →
        ∃ c, valid_slots_of plate_rows 2 !! (p_start p + k) = Some (r, c) ∧
             block (valid_slots_of plate_rows 2) p !! k = Some (p_id p, r, c)) pl.
Proof.
  apply (replicates_stay_in_row 91 (valid_slots_of plate_rows 2) two_sixes _ []).
  by vm_compute.
Defined.

(** C8: on a queue whose replicate counts are at least 1 the loop of
    [assign_samples] exits after at most [len(valid_slots) + len(queue)]
    passes through its body, and the call returns; every pass of the run
    either moves the slot cursor forward without growing the queue, or
    leaves the cursor and makes the queue shorter. *)
Theorem assign_samples_terminates slots q :
  valid_queue q →
  (∃ n st', n ≤ length slots + length q ∧
     nsteps (sched_next slots) n (Sched 0 q []) st' ∧
     sched_step slots st' = Ok None ∧
     schedule slots q = Ok (final_assignments st', queue st')) ∧
  (∀ st st', rtc (sched_next slots) (Sched 0 q []) st →
     sched_next slots st st' →
     (slot_idx st < slot_idx st' ∧ length (queue st') ≤ length (queue st))
     ∨ (slot_idx st' = slot_idx st ∧ length (queue st') < length (queue st))) ∧
  (∀ self start_col, ∃ self' lo,
     assign_samples self q start_col = Ok (self', lo)).
Proof.
  intros Hv. split_and!.
  - destruct (schedule_spec slots q Hv) as (n & st' & _ & Hn & Hs & He & Hrun & _).
    by exists n, st'.
  - intros st st' Hreach Hstep.
    destruct (sched_steps_inv _ _ _ Hreach) as (pl & H).
    destruct (H q []) as (_ & Hq). destruct (Hq Hv) as (Hv' & _).
    destruct (sched_next_inv _ _ _ Hstep) as (_ & pl1 & H1).
    destruct (H1 q []) as (_ & Hq1). by destruct (Hq1 Hv') as (_ & _ & Hprog).
  - intros self start_col.
    destruct (schedule_spec (valid_slots_of (rows self) start_col) q Hv)
      as (n & st' & _ & _ & _ & _ & Hrun & _).
    unfold assign_samples. rewrite Hrun. simpl. eauto.
Qed.

Lemma assign_samples_terminates_witness :
  (∃ n st', n ≤ length (valid_slots_of plate_rows 2) + length two_sixes ∧
     nsteps (sched_next (valid_slots_of plate_rows 2)) n (Sched 0 two_sixes []) st' ∧
     sched_step (valid_slots_of plate_rows 2) st' = Ok None ∧
     schedule (valid_slots_of plate_rows 2) two_sixes
       = Ok (final_assignments st', queue st')) ∧
  (∀ st st', rtc (sched_next (valid_slots_of plate_rows 2)) (Sched 0 two_sixes []) st →
     sched_next (valid_slots_of plate_rows 2) st st' →
     (slot_idx st < slot_idx st' ∧ length (queue st') ≤ length (queue st))
     ∨ (slot_idx st' = slot_idx st ∧ length (queue st') < length (queue st))) ∧
  (∀ self start_col, ∃ self' lo,
     assign_samples self two_sixes start_col = Ok (self', lo)).
Proof.
  apply (assign_samples_terminates (valid_slots_of plate_rows 2) two_sixes).
  repeat constructor; simpl; lia.
Defined.

Lemma count_row_next r slots :
  match slots !! count_row r slots with
  | Some (r', _) => r' ≠ r
  | None => True
  end.
Proof.
  induction slots as [|[r' c] slots IH]; simpl; [done|].
  case_decide as Hr; [exact IH|done].
Qed.

(** C4: at a pass of the loop with the cursor on a slot of row [r], the
    number [sir] the scan compares with is the number of consecutive slots
    from the cursor on that carry the label [r]: these [sir] slots exist and
    all lie in row [r], and the slot after them is absent or of another row.
    The index the scan picks is the least index of a group whose replicate
    count is at most [sir], and none is picked only when no group fits; the
    pass then places members of the picked group and of no other, a prefix
    of its member list, from the cursor on; and of two queued groups of
    equal replicate count that fit, the later one is not the one picked. *)
Theorem first_fit_in_queue_order slots st r c :
  slots !! slot_idx st = Some (r, c) →
  let sir := count_row r (drop (slot_idx st) slots) in
  (1 ≤ sir ∧ slot_idx st + sir ≤ length slots ∧
   (∀ k, k < sir → ∃ c', slots !! (slot_idx st + k) = Some (r, c')) ∧
   match slots !! (slot_idx st + sir) with
   | Some (r', _) => r' ≠ r
   | None => True
   end) ∧
  (∀ i, first_fit (queue st) (Z.of_nat sir) = Some i ↔
     ∃ sub reps, queue st !! i = Some (sub, reps) ∧ (reps ≤ Z.of_nat sir)%Z ∧
       ∀ j g, j < i → queue st !! j = Some g → (Z.of_nat sir < g.2)%Z) ∧
  (first_fit (queue st) (Z.of_nat sir) = None ↔
     Forall (λ g : group, (Z.of_nat sir < g.2)%Z) (queue st)) ∧
  (∀ i sub reps,
     first_fit (queue st) (Z.of_nat sir) = Some i →
     queue st !! i = Some (sub, reps) → (1 ≤ reps)%Z →
     ∃ st' tps, sched_step slots st = Ok (Some st') ∧
       tps ≤ length sub ∧ (sub = [] ∨ 1 ≤ tps) ∧
       final_assignments st'
       = final_assignments st
         ++ (placements (take tps sub) (Z.to_nat reps) (slot_idx st)
               ≫= block slots)) ∧
  (∀ i j gi gj, i < j →
     queue st !! i = Some gi → queue st !! j = Some gj →
     gi.2 = gj.2 → (gj.2 ≤ Z.of_nat sir)%Z →
     ∃ k, first_fit (queue st) (Z.of_nat sir) = Some k ∧ k ≤ i).
Proof.
  intros Hw sir. split_and!.
  - apply (row_span _ _ _ _ Hw).
  - apply (row_span _ _ _ _ Hw).
  - destruct (row_span _ _ _ _ Hw) as (_ & Hend & Hrow). fold sir in Hend, Hrow.
    intros k Hk.
    destruct (lookup_lt_is_Some_2 slots (slot_idx st + k)) as [[r' c'] Hk']; [lia|].
    assert (take sir (drop (slot_idx st) slots) !! k = Some (r', c')) as Ht
      by (rewrite lookup_take_Some, lookup_drop; split; [done|lia]).
    eapply Forall_lookup_1 in Hrow; [|exact Ht]. simpl in Hrow. subst r'.
    by exists c'.
  - pose proof (count_row_next r (drop (slot_idx st) slots)) as Hnext.
    fold sir in Hnext. by rewrite lookup_drop in Hnext.
  - intros i. split.
    + apply first_fit_Some.
    + intros (sub & reps & Hg & Hle & Hmin). by eapply first_fit_least.
  - apply first_fit_None.
  - intros i sub reps Hfit Hg Hpos.
    destruct (first_fit_Some _ _ _ Hfit) as (sub' & reps' & Hg' & Hle & _).
    rewrite Hg in Hg'. injection Hg' as <- <-.
    destruct (tps_of_facts (length sub) sir reps Hpos Hle) as (Hlen & _ & Htps).
    eexists _, (tps_of (length sub) sir reps).
    split_and!; [by eapply sched_step_fit|done| |done].
    destruct Htps as [Hz|Hz]; [left; by destruct sub|by right].
  - intros i j [subi repsi] [subj repsj] Hij Hgi Hgj Heq Hle. simpl in *. subst.
    destruct (first_fit (queue st) (Z.of_nat sir)) as [k|] eqn:Hfit.
    + exists k. split; [done|].
      destruct (first_fit_Some _ _ _ Hfit) as (_ & _ & _ & _ & Hmin).
      destruct (decide (k ≤ i)) as [|Hki]; [done|].
      specialize (Hmin i (subi, repsj) ltac:(lia) Hgi). simpl in Hmin. lia.
    + apply first_fit_None in Hfit.
      eapply Forall_lookup_1 in Hfit; [|exact Hgi]. simpl in Hfit. lia.
Qed.

Lemma first_fit_in_queue_order_witness :
  (∀ k, k < 11 → ∃ c', valid_slots_of plate_rows 2 !! (0 + k) = Some ("A", c')) ∧
  first_fit (queue fifo_state) 11 = Some 1 ∧
  ∃ k, first_fit (queue fifo_state) 11 = Some k ∧ k ≤ 1.
Proof.
  destruct (first_fit_in_queue_order (valid_slots_of plate_rows 2) fifo_state
              "A" 2%Z eq_refl) as ((_ & _ & Hrow & _) & Hleast & _ & _ & Hfifo).
  split_and!.
  - exact Hrow.
  - apply Hleast. exists ["x1"; "x2"; "x3"; "x4"], 3%Z.
    split_and!; [done|done|]. intros j g Hj Hg. destruct j; [|lia].
    injection Hg as <-. by vm_compute.
  - apply (Hfifo 1 2 (["x1"; "x2"; "x3"; "x4"], 3%Z) (["y"], 3%Z));
      [lia|done|done|done|simpl; done].
Defined.

(** C5: when the pass places fewer members than the picked group has, the
    first [tps] members are placed, one block of replicate-count wells each,
    from the cursor on and inside the current row, and the cursor moves past
    them; the members from index [tps] on, with the group's replicate count,
    are the head of the queue after the pass, in front of every group that
    was queued; so the next scan tests this remainder first and picks it
    whenever it fits the slots then left in the row. *)
Theorem split_remainder_goes_first slots st r c i sub reps :
  slots !! slot_idx st = Some (r, c) →
  first_fit (queue st) (Z.of_nat (count_row r (drop (slot_idx st) slots))) = Some i →
  queue st !! i = Some (sub, reps) →
  (1 ≤ reps)%Z →
  tps_of (length sub) (count_row r (drop (slot_idx st) slots)) reps < length sub →
  ∃ st', sched_step slots st = Ok (Some st') ∧
    let tps := tps_of (length sub) (count_row r (drop (slot_idx st) slots)) reps in
    1 ≤ tps ∧
    slot_idx st' = slot_idx st + tps * Z.to_nat reps ∧
    final_assignments st'
    = final_assignments st
      ++ (placements (take tps sub) (Z.to_nat reps) (slot_idx st) ≫= block slots) ∧
    length (placements (take tps sub) (Z.to_nat reps) (slot_idx st)) = tps ∧
    Forall (in_one_row slots)
      (placements (take tps sub) (Z.to_nat reps) (slot_idx st)) ∧
    sub = take tps sub ++ drop tps sub ∧
    queue st' = (drop tps sub, reps) :: delete i (queue st) ∧
    drop tps sub ≠ [] ∧
    (∀ k g, delete i (queue st) !! k = Some g → queue st' !! S k = Some g) ∧
    (∀ x, (reps ≤ x)%Z → first_fit (queue st') x = Some 0).
Proof.
  intros Hw Hfit Hg Hpos Hsplit.
  destruct (first_fit_Some _ _ _ Hfit) as (sub' & reps' & Hg' & Hle & _).
  rewrite Hg in Hg'. injection Hg' as <- <-.
  destruct (tps_of_facts (length sub) _ reps Hpos Hle) as (Hlen & Hmul & Htps).
  eexists. split; [by eapply sched_step_fit|]. simpl.
  rewrite decide_True by done.
  assert (length (take (tps_of (length sub)
            (count_row r (drop (slot_idx st) slots)) reps) sub)
          = tps_of (length sub) (count_row r (drop (slot_idx st) slots)) reps) as Htk
    by (rewrite length_take; lia).
  split_and!.
  - lia.
  - done.
  - done.
  - by rewrite placements_length.
  - eapply placements_in_one_row; [done|lia|done|done].
  - by rewrite take_drop.
  - done.
  - intros Hnil%(f_equal length). rewrite length_drop in Hnil. simpl in Hnil. lia.
  - done.
  - intros x Hx. simpl. by rewrite decide_True.
Qed.

Lemma split_remainder_goes_first_witness :
  ∃ st', sched_step (valid_slots_of plate_rows 2) fifo_state = Ok (Some st') ∧
    let tps := tps_of 4 11 3 in
    1 ≤ tps ∧
    slot_idx st' = 0 + tps * 3 ∧
    final_assignments st'
    = [] ++ (placements (take tps ["x1"; "x2"; "x3"; "x4"]) 3 0
               ≫= block (valid_slots_of plate_rows 2)) ∧
    length (placements (take tps ["x1"; "x2"; "x3"; "x4"]) 3 0) = tps ∧
    Forall (in_one_row (valid_slots_of plate_rows 2))
      (placements (take tps ["x1"; "x2"; "x3"; "x4"]) 3 0) ∧
    ["x1"; "x2"; "x3"; "x4"]
    = take tps ["x1"; "x2"; "x3"; "x4"] ++ drop tps ["x1"; "x2"; "x3"; "x4"] ∧
    queue st' = (drop tps ["x1"; "x2"; "x3"; "x4"], 3%Z)
                  :: delete 1 (queue fifo_state) ∧
    drop tps ["x1"; "x2"; "x3"; "x4"] ≠ [] ∧
    (∀ k g, delete 1 (queue fifo_state) !! k = Some g → queue st' !! S k = Some g) ∧
    (∀ x, (3 ≤ x)%Z → first_fit (queue st') x = Some 0).
Proof.
  apply (split_remainder_goes_first (valid_slots_of plate_rows 2) fifo_state
           "A" 2%Z 1 ["x1"; "x2"; "x3"; "x4"] 3%Z);
    [done|done|done|lia|vm_compute; lia].
Defined.

(** The pass of the witness above, computed: x1, x2 and x3 stand on A2..A10
    and x4 heads the queue. *)
Example split_pass_computed :
  sched_step (valid_slots_of plate_rows 2) fifo_state
  = Ok (Some (Sched 9 [(["x4"], 3%Z); (["w"], 12%Z); (["y"], 3%Z)]
                [("x1", "A", 2); ("x1", "A", 3); ("x1", "A", 4);
                 ("x2", "A", 5); ("x2", "A", 6); ("x2", "A", 7);
                 ("x3", "A", 8); ("x3", "A", 9); ("x3", "A", 10)]%Z)).
Proof. by vm_compute. Qed.

(** C9: when the group the scan picks has an empty member list (and a
    replicate count of at least 1), the pass removes it from the queue,
    appends no assignment and leaves the cursor where it was; the run goes
    on exactly as from the state without that group, so the group is in
    neither part of the PlacementResult. *)
Theorem empty_group_vanishes slots st r c i reps :
  slots !! slot_idx st = Some (r, c) →
  first_fit (queue st) (Z.of_nat (count_row r (drop (slot_idx st) slots))) = Some i →
  queue st !! i = Some ([], reps) →
  (1 ≤ reps)%Z →
  sched_step slots st
  = Ok (Some (Sched (slot_idx st) (delete i (queue st)) (final_assignments st))) ∧
  ∀ fuel, sched_loop (S fuel) slots st
          = sched_loop fuel slots
              (Sched (slot_idx st) (delete i (queue st)) (final_assignments st)).
Proof.
  intros Hw Hfit Hg Hpos.
  assert (sched_step slots st
    = Ok (Some (Sched (slot_idx st) (delete i (queue st)) (final_assignments st))))
    as Hstep.
  { destruct (first_fit_Some _ _ _ Hfit) as (sub' & reps' & Hg' & Hle & _).
    rewrite Hg in Hg'. injection Hg' as <- <-.
    destruct (tps_of_facts 0 _ reps Hpos Hle) as (Hz & _ & _).
    rewrite (sched_step_fit _ _ _ _ _ _ _ Hw Hfit Hg Hpos). simpl.
    replace (tps_of 0 _ reps) with 0 by lia. simpl.
    by rewrite Nat.add_0_r, app_nil_r. }
  split; [done|]. intros fuel. simpl. by rewrite Hstep.
Qed.

Lemma empty_group_vanishes_witness :
  sched_step (valid_slots_of plate_rows 2) hollow_state
  = Ok (Some (Sched 0 (delete 1 (queue hollow_state)) [])) ∧
  ∀ fuel, sched_loop (S fuel) (valid_slots_of plate_rows 2) hollow_state
          = sched_loop fuel (valid_slots_of plate_rows 2)
              (Sched 0 (delete 1 (queue hollow_state)) []).
Proof.
  apply (empty_group_vanishes (valid_slots_of plate_rows 2) hollow_state
           "A" 2%Z 1 3%Z); [done|done|done|lia].
Defined.

(** ** Construction and calibration *)

Lemma standards_loop_spec reversed_concs rs :
  ∀ i self, i + length rs ≤ length reversed_concs → NoDup rs →
  ∃ L, standards_loop reversed_concs i rs self = Ok L ∧
    rows L = rows self ∧
    (∀ k row, rs !! k = Some row →
       ∃ conc, reversed_concs !! (i + k) = Some conc ∧
         layout_grid L !! (row, 1%Z) = Some ("STD_" +:+ conc) ∧
         type_grid L !! (row, 1%Z) = Some "Standard") ∧
    (∀ key, (∀ row, row ∈ rs → key ≠ (row, 1%Z)) →
       layout_grid L !! key = layout_grid self !! key ∧
       type_grid L !! key = type_grid self !! key).
Proof.
  induction rs as [|row rs IH]; intros i self Hlen Hnd.
  - exists self. split_and!; [done|done|by intros [|]|done].
  - apply NoDup_cons in Hnd as [Hrow Hnd]. simpl in Hlen.
    destruct (lookup_lt_is_Some_2 reversed_concs i) as [conc Hconc]; [lia|].
    destruct (IH (S i)
                (write_well self row 1 ("STD_" +:+ conc) "Standard"))
      as (L & Hrun & Hrows & Hset & Hframe); [lia|done|].
    exists L. split_and!.
    + simpl. by rewrite Hconc.
    + done.
    + intros [|k] row' Hk.
      * injection Hk as <-. exists conc. rewrite Nat.add_0_r.
        destruct (Hframe (row, 1%Z)) as [-> ->];
          [intros r Hr Heq; injection Heq as <-; done|].
        simpl. by rewrite !lookup_insert_eq.
      * destruct (Hset k row' Hk) as (conc' & Hc & Hl & Ht).
        exists conc'. by rewrite Nat.add_succ_r.
    + intros key Hkey.
      destruct (Hframe key) as [-> ->];
        [intros r Hr; apply Hkey; by apply elem_of_cons; right|].
      assert ((row, 1%Z) ≠ key) as Hne
        by (intros <-; apply (Hkey row); [apply elem_of_cons; by left|done]).
      simpl. by rewrite !lookup_insert_ne.
Qed.

(** For any eight concentrations, row [i] of the plate receives entry
    [8 - 1 - i] of the list. *)
Lemma init_standards_reversed stds :
  length stds = 8 →
  ∃ L, PlateLayout__init__ stds = Ok L ∧ rows L = plate_rows ∧
    ∀ i row, plate_rows !! i = Some row →
      ∃ conc, stds !! (length plate_rows - 1 - i) = Some conc ∧
        layout_grid L !! (row, 1%Z) = Some ("STD_" +:+ conc) ∧
        type_grid L !! (row, 1%Z) = Some "Standard".
Proof.
  intros Hlen.
  destruct (standards_loop_spec (reverse stds) plate_rows 0
              (mkPlateLayout plate_rows (seqZ 1 12) ∅ ∅ stds))
    as (L & Hrun & Hrows & Hset & _).
  { rewrite length_reverse, Hlen. simpl. lia. }
  { apply (bool_decide_unpack _). by vm_compute. }
  exists L. split_and!.
  - unfold PlateLayout__init__. destruct stds as [|s0 stds]; [done|].
    unfold _initialize_standards.
    cbn [standard_concentrations rows]. by rewrite decide_False by lia.
  - done.
  - intros i row Hi. destruct (Hset i row Hi) as (conc & Hc & Hl & Ht).
    exists conc. split_and!; [|done|done].
    apply lookup_lt_Some in Hi as Hlt. change (length plate_rows) with 8 in *.
    rewrite reverse_lookup in Hc by lia. rewrite <-Hc. f_equal. lia.
Qed.

(** C6: the plate built from the eight default standards has, in column 1
    of row number [i] (from 0), the standard number [row_count - 1 - i]
    of the list, typed "Standard"; row A holds 6.4 and row H holds 0. *)
Theorem calibration_is_reversed :
  ∃ L, PlateLayout__init__ default_standards = Ok L ∧
    (∀ i row, rows L !! i = Some row →
       ∃ conc, default_standards !! (length (rows L) - 1 - i) = Some conc ∧
         layout_grid L !! (row, 1%Z) = Some ("STD_" +:+ conc) ∧
         type_grid L !! (row, 1%Z) = Some "Standard") ∧
    layout_grid L !! ("A", 1%Z) = Some "STD_6.4" ∧
    layout_grid L !! ("H", 1%Z) = Some "STD_0".
Proof.
  destruct (init_standards_reversed default_standards eq_refl)
    as (L & Hinit & Hrows & Hset).
  exists L. rewrite Hrows. split_and!; [done|done| |].
  - destruct (Hset 0 "A" eq_refl) as (conc & [= <-] & Hl & _). exact Hl.
  - destruct (Hset 7 "H" eq_refl) as (conc & [= <-] & Hl & _). exact Hl.
Qed.

Lemma init_wrong_length stds :
  length stds ≠ 8 →
  PlateLayout__init__ stds = Ok (mkPlateLayout plate_rows (seqZ 1 12) ∅ ∅ stds).
Proof.
  intros Hlen. unfold PlateLayout__init__. destruct stds as [|s0 stds]; [done|].
  unfold _initialize_standards. cbn [standard_concentrations].
  by rewrite decide_True.
Qed.

(** C7 (as stated) fails: constructing a plate with a one-element standards
    list raises nothing; it returns a plate with both grids empty. *)
Lemma short_standards_accepted :
  PlateLayout__init__ ["1.0"]
    = Ok (mkPlateLayout plate_rows (seqZ 1 12) ∅ ∅ ["1.0"])
  ∧ ∀ e, PlateLayout__init__ ["1.0"] ≠ Raise e.
Proof.
  assert (PlateLayout__init__ ["1.0"]
          = Ok (mkPlateLayout plate_rows (seqZ 1 12) ∅ ∅ ["1.0"])) as H
    by (apply init_wrong_length; simpl; lia).
  split; [done|]. intros e. by rewrite H.
Qed.

(** C7 (amended): constructing a plate with a standards list whose length
    differs from the row count 8, empty or not, raises no error: the
    constructor returns, and calibration is skipped entirely, both grids
    being empty. *)
Theorem wrong_length_skips_calibration stds :
  length stds ≠ 8 →
  ∃ L, PlateLayout__init__ stds = Ok L ∧
    layout_grid L = ∅ ∧ type_grid L = ∅ ∧
    rows L = plate_rows ∧ standard_concentrations L = stds.
Proof.
  intros Hlen. eexists. split; [by apply init_wrong_length|done].
Qed.

Lemma wrong_length_skips_calibration_witness :
  (∃ L, PlateLayout__init__ ["1.0"; "2.0"] = Ok L ∧
     layout_grid L = ∅ ∧ type_grid L = ∅ ∧
     rows L = plate_rows ∧ standard_concentrations L = ["1.0"; "2.0"]) ∧
  (∃ L, PlateLayout__init__ [] = Ok L ∧
     layout_grid L = ∅ ∧ type_grid L = ∅ ∧
     rows L = plate_rows ∧ standard_concentrations L = []).
Proof.
  split.
  - apply (wrong_length_skips_calibration ["1.0"; "2.0"]). simpl. lia.
  - apply (wrong_length_skips_calibration []). simpl. lia.
Defined.

(** ** What a run writes *)

Lemma elem_of_valid_slots rs start_col (w : well) :
  w ∈ valid_slots_of rs start_col →
  w.1 ∈ rs ∧ (start_col ≤ w.2 < 13)%Z.
Proof.
  unfold valid_slots_of. intros (row & Hw & Hrow)%list_elem_of_bind.
  apply list_elem_of_bind in Hw as (c & Hw & Hc).
  apply list_elem_of_singleton in Hw as ->. simpl.
  apply elem_of_seqZ in Hc. split; [done|lia].
Qed.

Lemma render_frame fa : ∀ self key,
  (∀ a, a ∈ fa → assigned_well a ≠ key) →
  layout_grid (_render_assignments_linear self fa) !! key
    = layout_grid self !! key ∧
  type_grid (_render_assignments_linear self fa) !! key
    = type_grid self !! key.
Proof.
  unfold _render_assignments_linear.
  induction fa as [|[[s_id r] c] fa IH]; intros self key Hne; [done|].
  simpl. destruct (IH (write_well self r c s_id "Sample") key) as [-> ->].
  - intros a Ha. apply Hne. apply elem_of_cons. by right.
  - assert ((r, c) ≠ key) as Hk
      by (apply (Hne (s_id, r, c)); apply elem_of_cons; by left).
    simpl. by rewrite !lookup_insert_ne.
Qed.

(** C10: when [assign_samples] is called with [start_col >= 2] and
    returns, every well of a column below [start_col] holds in both grids
    what it held before the call; in particular every well of column 1. *)
Theorem assign_samples_keeps_calibration self q start_col self' lo :
  (2 ≤ start_col)%Z →
  assign_samples self q start_col = Ok (self', lo) →
  (∀ row c, (c < start_col)%Z →
     layout_grid self' !! (row, c) = layout_grid self !! (row, c) ∧
     type_grid self' !! (row, c) = type_grid self !! (row, c)) ∧
  (∀ row,
     layout_grid self' !! (row, 1%Z) = layout_grid self !! (row, 1%Z) ∧
     type_grid self' !! (row, 1%Z) = type_grid self !! (row, 1%Z)).
Proof.
  intros Hcol Hrun.
  assert (∀ row c, (c < start_col)%Z →
     layout_grid self' !! (row, c) = layout_grid self !! (row, c) ∧
     type_grid self' !! (row, c) = type_grid self !! (row, c)) as Hframe.
  { unfold assign_samples in Hrun.
    destruct (schedule (valid_slots_of (rows self) start_col) q)
      as [[fa lo']| |] eqn:Hs; [|done|done].
    cbn in Hrun. injection Hrun as <- <-.
    apply sched_loop_placed in Hs as (pl & -> & _).
    intros row c Hc. apply render_frame. intros a Ha Heq.
    apply assigned_in_slots, elem_of_valid_slots in Ha as [_ Hrange].
    rewrite Heq in Hrange. simpl in Hrange. lia. }
  split; [done|]. intros row. apply Hframe. lia.
Qed.

Lemma assign_samples_keeps_calibration_witness :
  (∀ row c, (c < 2)%Z →
     layout_grid seeded_plate_after !! (row, c)
       = layout_grid seeded_plate !! (row, c) ∧
     type_grid seeded_plate_after !! (row, c)
       = type_grid seeded_plate !! (row, c)) ∧
  (∀ row,
     layout_grid seeded_plate_after !! (row, 1%Z)
       = layout_grid seeded_plate !! (row, 1%Z) ∧
     type_grid seeded_plate_after !! (row, 1%Z)
       = type_grid seeded_plate !! (row, 1%Z)).
Proof.
  apply (assign_samples_keeps_calibration seeded_plate seeded_queue 2
           seeded_plate_after []).
  - lia.
  - vm_compute. reflexivity.
Defined.

(** ** The per-plate loop and a group wider than every row *)

Lemma plate_capacity : row_capacity (valid_slots_of plate_rows 2) 11.
Proof.
  assert (forallb (λ idx,
            match valid_slots_of plate_rows 2 !! idx with
            | Some (r, _) =>
                count_row r (drop idx (valid_slots_of plate_rows 2)) <=? 11
            | None => true
            end) (seq 0 88) = true) as Hall by (by vm_compute).
  intros idx r c Hw. rewrite forallb_forall in Hall.
  specialize (Hall idx). rewrite Hw in Hall. apply Nat.leb_le, Hall.
  apply in_seq. apply lookup_lt_Some in Hw. change (idx < 88) in Hw. lia.
Qed.

Lemma elem_of_delete_ne {A} (l : list A) i x y :
  l !! i = Some y → x ≠ y → x ∈ l → x ∈ delete i l.
Proof.
  intros Hy Hne Hx. rewrite (delete_Permutation l i y Hy) in Hx.
  apply elem_of_cons in Hx as [?|?]; done.
Qed.

Lemma wide_group_stays slots cap (g : group) st st' :
  row_capacity slots cap → (Z.of_nat cap < g.2)%Z →
  sched_next slots st st' → g ∈ queue st → g ∈ queue st'.
Proof.
  intros Hcap Hwide Hstep Hin.
  apply sched_step_cases in Hstep as (r & c & Hw & Hq & Hcases).
  specialize (Hcap _ _ _ Hw).
  destruct Hcases as [[Hfit ->]|[(i & sub & reps & sub' & Hfit & Hg & Hneg & Hsuf & ->)
    |(i & sub & reps & Hfit & Hg & Hpos & Hle & ->)]]; simpl.
  - done.
  - apply elem_of_cons. right. eapply elem_of_delete_ne; [done| |done].
    intros ->. simpl in Hwide. lia.
  - assert (g ∈ delete i (queue st)) as Hd.
    { eapply elem_of_delete_ne; [done| |done]. intros ->. simpl in Hwide. lia. }
    case_decide; [apply elem_of_cons; by right|done].
Qed.

Lemma wide_group_stays_rtc slots cap (g : group) st st' :
  row_capacity slots cap → (Z.of_nat cap < g.2)%Z →
  rtc (sched_next slots) st st' → g ∈ queue st → g ∈ queue st'.
Proof.
  intros Hcap Hwide. induction 1 as [|st st1 st2 Hstep _ IH]; [done|].
  intros Hin. apply IH. by eapply wide_group_stays.
Qed.

Lemma wide_group_left_over slots cap (g : group) q :
  row_capacity slots cap → (Z.of_nat cap < g.2)%Z →
  valid_queue q → g ∈ q →
  ∃ fa lo, schedule slots q = Ok (fa, lo) ∧ valid_queue lo ∧ g ∈ lo.
Proof.
  intros Hcap Hwide Hv Hin.
  destruct (schedule_spec slots q Hv)
    as (n & st' & pl & _ & Hsteps & _ & Hrun & _ & _ & Hv').
  exists (final_assignments st'), (queue st'). split_and!; [done|done|].
  apply rtc_nsteps_2 in Hsteps.
  by apply (wide_group_stays_rtc slots cap g _ _ Hcap Hwide Hsteps).
Qed.

Lemma init_default_rows :
  ∃ L, PlateLayout__init__ default_standards = Ok L ∧ rows L = plate_rows.
Proof.
  destruct (init_standards_reversed default_standards eq_refl)
    as (L & Hinit & Hrows & _).
  by exists L.
Qed.

Lemma plate_pass_wide (g : group) q :
  (11 < g.2)%Z → valid_queue q → g ∈ q →
  ∃ L L' lo, PlateLayout__init__ default_standards = Ok L ∧
    assign_samples L q 2 = Ok (L', lo) ∧ valid_queue lo ∧ g ∈ lo.
Proof.
  intros Hwide Hv Hin. destruct init_default_rows as (L & HL & Hrows).
  destruct (wide_group_left_over _ 11 g q plate_capacity Hwide Hv Hin)
    as (fa & lo & Hrun & Hv' & Hin').
  exists L, (_render_assignments_linear L fa), lo.
  split_and!; [done| |done|done].
  unfold assign_samples. rewrite Hrows, Hrun. done.
Qed.

(** Unfolding the two per-plate recursions one plate at a time. *)
Lemma result_bind_Ok {A B} (a : A) (f : A → result B) : (Ok a ≫= f) = f a.
Proof. reflexivity. Qed.

Lemma remainder_after_S k q :
  remainder_after (S k) q
  = (layout ← PlateLayout__init__ default_standards;
     '(_, leftovers) ← assign_samples layout q 2;
     remainder_after k leftovers).
Proof. reflexivity. Qed.

Lemma plates_loop_S fuel g q :
  plates_loop (S fuel) (g :: q)
  = (layout ← PlateLayout__init__ default_standards;
     '(layout', leftovers) ← assign_samples layout (g :: q) 2;
     match leftovers with
     | [] => Ok [layout']
     | _ :: _ => plates ← plates_loop fuel leftovers; Ok (layout' :: plates)
     end).
Proof. reflexivity. Qed.

(** One plate on a queue that holds a group wider than a row: the pass
    returns and the group is among its leftovers. *)
Lemma remainder_after_wide (g : group) k q :
  (11 < g.2)%Z → valid_queue q → g ∈ q →
  ∃ qk, remainder_after k q = Ok qk ∧ valid_queue qk ∧ g ∈ qk.
Proof.
  intros Hwide. revert q. induction k as [|k IH]; intros q Hv Hin.
  - by exists q.
  - destruct (plate_pass_wide g q Hwide Hv Hin)
      as (L & L' & lo & HL & Hpass & Hv' & Hin').
    rewrite remainder_after_S, HL, result_bind_Ok, Hpass, result_bind_Ok.
    by apply IH.
Qed.

Lemma plates_loop_wide (g : group) fuel q :
  (11 < g.2)%Z → valid_queue q → g ∈ q → plates_loop fuel q = OutOfFuel.
Proof.
  intros Hwide. revert q. induction fuel as [|fuel IH]; intros q Hv Hin; [done|].
  destruct (plate_pass_wide g q Hwide Hv Hin)
    as (L & L' & lo & HL & Hpass & Hv' & Hin').
  destruct q as [|g0 q]; [by apply elem_of_nil in Hin|].
  rewrite plates_loop_S, HL, result_bind_Ok, Hpass, result_bind_Ok.
  destruct lo as [|g1 lo]; [by apply elem_of_nil in Hin'|].
  by rewrite (IH _ Hv' Hin').
Qed.

Lemma starved_queue_wide :
  valid_queue starved_queue ∧ (["s"], 12%Z) ∈ starved_queue.
Proof.
  split; [repeat constructor; simpl; lia|]. unfold starved_queue. set_solver.
Qed.

(** C3 (as stated) fails: on [starved_queue] the first pass places nothing
    and leaves the queue as it was, and the per-plate loop raises no error
    and does not stop, however many plates it is allowed. *)
Lemma no_starvation_error :
  schedule (valid_slots_of plate_rows 2) starved_queue = Ok ([], starved_queue)
  ∧ plates_loop 3 starved_queue = OutOfFuel
  ∧ ∀ fuel, plates_loop fuel starved_queue = OutOfFuel.
Proof.
  destruct starved_queue_wide as (Hv & Hin).
  assert (Hloop : ∀ fuel, plates_loop fuel starved_queue = OutOfFuel)
    by (intros fuel; by apply (plates_loop_wide (["s"], 12%Z))).
  split_and!; [by vm_compute|apply Hloop|apply Hloop].
Qed.

(** C3 (amended): for a queue whose replicate counts are at least 1 and
    that holds a group of more than eleven replicates (the slots of a row
    from column 2), that group is in the remainder after every number of
    plates, with all its members; the per-plate loop has no starvation
    check: it raises no error and never leaves the loop, whatever number of
    plates it is allowed. *)
Theorem wide_group_never_placed q (g : group) :
  valid_queue q → g ∈ q → (11 < g.2)%Z →
  (∀ k, ∃ qk, remainder_after k q = Ok qk ∧ valid_queue qk ∧ g ∈ qk) ∧
  (∀ fuel, plates_loop fuel q = OutOfFuel).
Proof.
  intros Hv Hin Hwide. split.
  - intros k. by apply remainder_after_wide.
  - intros fuel. by apply (plates_loop_wide g).
Qed.

Lemma wide_group_never_placed_witness :
  (∀ k, ∃ qk, remainder_after k [(["u"], 2%Z); (["v"], 20%Z)] = Ok qk ∧
     valid_queue qk ∧ (["v"], 20%Z) ∈ qk) ∧
  (∀ fuel, plates_loop fuel [(["u"], 2%Z); (["v"], 20%Z)] = OutOfFuel).
Proof.
  apply (wide_group_never_placed [(["u"], 2%Z); (["v"], 20%Z)] (["v"], 20%Z)).
  - repeat constructor; simpl; lia.
  - set_solver.
  - simpl. lia.
Defined.

(** ** Wells are handed out in slot order *)

Lemma block_wells slots p :
  assigned_well <$> block slots p = take (p_reps p) (drop (p_start p) slots).
Proof.
  unfold block. rewrite <-list_fmap_compose.
  rewrite <-(list_fmap_id (take _ _)) at 2.
  apply list_fmap_ext. by intros _ [r c] _.
Qed.

Lemma placements_wells slots ms n idx :
  assigned_well <$> (placements ms n idx ≫= block slots)
  = take (length ms * n) (drop idx slots).
Proof.
  revert idx. induction ms as [|s ms IH]; intros idx; [done|].
  cbn [placements length]. rewrite bind_cons, fmap_app, IH, block_wells.
  cbn [p_reps p_start]. rewrite <-(drop_drop slots n idx), take_take_drop.
  f_equal.
Qed.

Lemma sched_next_wells slots st st' :
  sched_next slots st st' →
  assigned_well <$> final_assignments st `sublist_of` take (slot_idx st) slots →
  assigned_well <$> final_assignments st' `sublist_of` take (slot_idx st') slots.
Proof.
  intros Hstep Hsub. apply sched_step_cases in Hstep as (r & c & Hw & Hq & Hcases).
  destruct Hcases as [[Hfit ->]|[(i & sub & reps & sub' & Hfit & Hg & Hneg & Hsuf & ->)
    |(i & sub & reps & Hfit & Hg & Hpos & Hle & ->)]]; cbn [slot_idx final_assignments].
  - etrans; [exact Hsub|]. rewrite <-take_take_drop. by apply sublist_inserts_r.
  - done.
  - rewrite fmap_app, placements_wells, <-take_take_drop.
    apply sublist_app; [done|].
    destruct (tps_of_facts (length sub) _ reps Hpos Hle) as (Hlen & _ & _).
    by rewrite length_take, Nat.min_l.
Qed.

Lemma sched_steps_wells slots st st' :
  rtc (sched_next slots) st st' →
  assigned_well <$> final_assignments st `sublist_of` take (slot_idx st) slots →
  assigned_well <$> final_assignments st' `sublist_of` take (slot_idx st') slots.
Proof. induction 1; eauto using sched_next_wells. Qed.

Lemma sched_loop_wells fuel slots q fa lo :
  sched_loop fuel slots (Sched 0 q []) = Ok (fa, lo) →
  assigned_well <$> fa `sublist_of` slots.
Proof.
  intros (n & st' & _ & Hsteps & _ & <- & <-)%sched_loop_Ok.
  etrans; [|apply (sublist_take slots (slot_idx st'))].
  apply (sched_steps_wells slots _ _ (rtc_nsteps_2 _ _ _ Hsteps)).
  apply sublist_nil_l.
Qed.

(** Whenever a run returns, the wells of its assignments, read in the order
    the assignments were appended, are a subsequence of the slot sequence:
    wells are handed out in slot order, and when no slot occurs twice in the
    sequence no well is assigned twice. *)
Theorem assigned_wells_in_slot_order fuel slots q fa lo :
  sched_loop fuel slots (Sched 0 q []) = Ok (fa, lo) →
  assigned_well <$> fa `sublist_of` slots ∧
  (NoDup slots → NoDup (assigned_well <$> fa)).
Proof.
  intros Hsub%sched_loop_wells.
  split; [done|]. intros Hnd. by eapply sublist_NoDup.
Qed.

Lemma assigned_wells_in_slot_order_witness :
  assigned_well <$>
    [("a", "A", 2); ("a", "A", 3); ("a", "A", 4); ("a", "A", 5);
     ("a", "A", 6); ("a", "A", 7);
     ("b", "B", 2); ("b", "B", 3); ("b", "B", 4); ("b", "B", 5);
     ("b", "B", 6); ("b", "B", 7)]%Z
    `sublist_of` valid_slots_of plate_rows 2 ∧
  (NoDup (valid_slots_of plate_rows 2) →
   NoDup (assigned_well <$>
     [("a", "A", 2); ("a", "A", 3); ("a", "A", 4); ("a", "A", 5);
      ("a", "A", 6); ("a", "A", 7);
      ("b", "B", 2); ("b", "B", 3); ("b", "B", 4); ("b", "B", 5);
      ("b", "B", 6); ("b", "B", 7)]%Z)).
Proof.
  apply (assigned_wells_in_slot_order 91 (valid_slots_of plate_rows 2)
           two_sixes _ []).
  by vm_compute.
Defined.

(** ** What the rendered plate shows *)

Lemma valid_slots_NoDup rs start_col :
  NoDup rs → NoDup (valid_slots_of rs start_col).
Proof.
  intros Hnd. unfold valid_slots_of. apply NoDup_bind; [| |done].
  - intros r1 r2 w _ _ (c1 & Hw1 & _)%list_elem_of_bind (c2 & Hw2 & _)%list_elem_of_bind.
    apply list_elem_of_singleton in Hw1, Hw2. congruence.
  - intros r _. apply NoDup_bind; [| |apply NoDup_seqZ].
    + intros c1 c2 w _ _ Hw1%list_elem_of_singleton Hw2%list_elem_of_singleton.
      congruence.
    + intros c _. apply NoDup_singleton.
Qed.

Lemma render_shows fa : ∀ self,
  NoDup (assigned_well <$> fa) →
  ∀ s_id r c, (s_id, r, c) ∈ fa →
    layout_grid (_render_assignments_linear self fa) !! (r, c) = Some s_id ∧
    type_grid (_render_assignments_linear self fa) !! (r, c) = Some "Sample".
Proof.
  induction fa as [|[[s0 r0] c0] fa IH]; intros self Hnd s_id r c Hin;
    [by apply elem_of_nil in Hin|].
  rewrite fmap_cons in Hnd. apply NoDup_cons in Hnd as [Hfresh Hnd].
  apply elem_of_cons in Hin as [Heq|Hin].
  - injection Heq as -> -> ->.
    change (_render_assignments_linear self ((s0, r0, c0) :: fa))
      with (_render_assignments_linear (write_well self r0 c0 s0 "Sample") fa).
    destruct (render_frame fa (write_well self r0 c0 s0 "Sample") (r0, c0))
      as [-> ->].
    + intros a Ha Heq. apply Hfresh.
      change (assigned_well (s0, r0, c0)) with (r0, c0). rewrite <-Heq.
      by apply list_elem_of_fmap_2.
    + simpl. by rewrite !lookup_insert_eq.
  - by apply (IH (write_well self r0 c0 s0 "Sample")).
Qed.

(** When the rows of a plate are pairwise distinct and [assign_samples]
    returns, every assignment of the run can be read off the plate: its well
    holds its sample id, typed "Sample" (no later assignment overwrote it),
    and every well that no assignment names holds what it held before. *)
Theorem rendered_plate_shows_assignments self q start_col self' lo :
  NoDup (rows self) →
  assign_samples self q start_col = Ok (self', lo) →
  ∃ fa, schedule (valid_slots_of (rows self) start_col) q = Ok (fa, lo) ∧
    (∀ s_id r c, (s_id, r, c) ∈ fa →
       layout_grid self' !! (r, c) = Some s_id ∧
       type_grid self' !! (r, c) = Some "Sample") ∧
    (∀ key, key ∉ assigned_well <$> fa →
       layout_grid self' !! key = layout_grid self !! key ∧
       type_grid self' !! key = type_grid self !! key).
Proof.
  intros Hnd Hrun. unfold assign_samples in Hrun.
  destruct (schedule (valid_slots_of (rows self) start_col) q)
    as [[fa lo']| |] eqn:Hs; [|done|done].
  cbn in Hrun. injection Hrun as <- <-. exists fa. split_and!; [done| |].
  - apply render_shows.
    eapply sublist_NoDup; [|exact (sched_loop_wells _ _ _ _ _ Hs)].
    by apply valid_slots_NoDup.
  - intros key Hkey. apply render_frame. intros a Ha <-.
    apply Hkey. by apply list_elem_of_fmap_2.
Qed.

Lemma rendered_plate_shows_assignments_witness :
  ∃ fa, schedule (valid_slots_of (rows seeded_plate) 2) seeded_queue = Ok (fa, []) ∧
    (∀ s_id r c, (s_id, r, c) ∈ fa →
       layout_grid seeded_plate_after !! (r, c) = Some s_id ∧
       type_grid seeded_plate_after !! (r, c) = Some "Sample") ∧
    (∀ key, key ∉ assigned_well <$> fa →
       layout_grid seeded_plate_after !! key = layout_grid seeded_plate !! key ∧
       type_grid seeded_plate_after !! key = type_grid seeded_plate !! key).
Proof.
  apply (rendered_plate_shows_assignments seeded_plate seeded_queue 2
           seeded_plate_after []).
  - apply (bool_decide_unpack _). by vm_compute.
  - vm_compute. reflexivity.
Defined.

(** ** Degenerate calls *)

Lemma valid_slots_head r rs start_col :
  (start_col ≤ 12)%Z → valid_slots_of (r :: rs) start_col !! 0 = Some (r, start_col).
Proof.
  intros Hle. unfold valid_slots_of. rewrite bind_cons.
  assert (seqZ start_col (13 - start_col)
          = start_col :: seqZ (Z.succ start_col) (Z.pred (13 - start_col))) as ->
    by (apply seqZ_cons; lia).
  by rewrite bind_cons.
Qed.

Lemma valid_slots_none rs start_col :
  (13 ≤ start_col)%Z → valid_slots_of rs start_col = [].
Proof.
  intros Hge. unfold valid_slots_of.
  assert (seqZ start_col (13 - start_col) = []) as ->
    by (unfold seqZ; by rewrite Z2Nat.nonpos by lia).
  induction rs as [|r rs IH]; [done|]. by rewrite bind_cons, IH.
Qed.

Lemma first_fit_head sub reps rest (x : Z) :
  (reps ≤ x)%Z → first_fit ((sub, reps) :: rest) x = Some 0.
Proof. intros Hle. simpl. by rewrite decide_True. Qed.

(** A replicate count of 0 in the first group of the queue: as soon as the
    plate has a slot, [assign_samples] stops with ZeroDivisionError (the
    group fits every row, is popped, and its count divides the row length);
    nothing is rendered. *)
Theorem zero_replicates_raise self sub rest start_col r rs :
  rows self = r :: rs → (start_col ≤ 12)%Z →
  assign_samples self ((sub, 0%Z) :: rest) start_col = Raise ZeroDivisionError.
Proof.
  intros Hrows Hcol. unfold assign_samples, schedule. rewrite Hrows.
  pose proof (valid_slots_head r rs start_col Hcol) as Hw.
  rewrite sched_loop_S.
  rewrite (sched_step_zero _ (Sched 0 ((sub, 0%Z) :: rest) []) r start_col 0 sub);
    [done|done| |done].
  apply first_fit_head. cbn [slot_idx]. lia.
Qed.

Lemma zero_replicates_raise_witness :
  assign_samples seeded_plate ((["z1"; "z2"], 0%Z) :: seeded_queue) 2
  = Raise ZeroDivisionError.
Proof.
  by apply (zero_replicates_raise seeded_plate ["z1"; "z2"] seeded_queue 2
              "A" ["B"; "C"; "D"; "E"; "F"; "G"; "H"]).
Defined.

(** A negative replicate count in the first group of the queue: as soon as
    the plate has a slot, the loop of [assign_samples] pops the group and
    puts it back at every pass, whatever number of passes it is given; the
    call does not return. *)
Theorem negative_replicates_never_return self sub reps rest start_col r rs :
  rows self = r :: rs → (start_col ≤ 12)%Z → (reps < 0)%Z →
  (∀ fuel, sched_loop fuel (valid_slots_of (rows self) start_col)
             (Sched 0 ((sub, reps) :: rest) []) = OutOfFuel) ∧
  assign_samples self ((sub, reps) :: rest) start_col = OutOfFuel.
Proof.
  intros Hrows Hcol Hneg.
  pose proof (valid_slots_head r rs start_col Hcol) as Hw.
  rewrite <-Hrows in Hw. apply lookup_lt_Some in Hw.
  assert (∀ fuel, sched_loop fuel (valid_slots_of (rows self) start_col)
             (Sched 0 ((sub, reps) :: rest) []) = OutOfFuel) as Hloop
    by (intros fuel; by apply (sched_loop_stuck _ _ _ sub reps rest)).
  split; [done|]. unfold assign_samples, schedule. by rewrite Hloop.
Qed.

Lemma negative_replicates_never_return_witness :
  (∀ fuel, sched_loop fuel (valid_slots_of (rows seeded_plate) 2)
             (Sched 0 ((["n"], (-2)%Z) :: seeded_queue) []) = OutOfFuel) ∧
  assign_samples seeded_plate ((["n"], (-2)%Z) :: seeded_queue) 2 = OutOfFuel.
Proof.
  by apply (negative_replicates_never_return seeded_plate ["n"] (-2)%Z
              seeded_queue 2 "A" ["B"; "C"; "D"; "E"; "F"; "G"; "H"]).
Defined.

(** With no slot to fill ([start_col] of 13 or more, or a plate without
    rows) or with an empty queue, [assign_samples] returns the queue it
    was given as leftovers and leaves the plate as it was. *)
Theorem nothing_to_place self q start_col :
  (13 ≤ start_col)%Z ∨ rows self = [] ∨ q = [] →
  assign_samples self q start_col = Ok (self, q).
Proof.
  intros Hcase. unfold assign_samples, schedule. rewrite sched_loop_S.
  rewrite sched_step_exit; [done|]. cbn [slot_idx queue].
  destruct Hcase as [Hcol|[Hrows| ->]]; [left|left|by right].
  - rewrite valid_slots_none by done. simpl. lia.
  - rewrite Hrows. unfold valid_slots_of. simpl. lia.
Qed.

Lemma nothing_to_place_witness :
  assign_samples seeded_plate seeded_queue 13 = Ok (seeded_plate, seeded_queue) ∧
  assign_samples seeded_plate [] 2 = Ok (seeded_plate, []).
Proof.
  split.
  - apply (nothing_to_place seeded_plate seeded_queue 13). left. lia.
  - apply (nothing_to_place seeded_plate [] 2). by right; right.
Defined.

Lemma empty_group_removed slots st r c i reps :
  slots !! slot_idx st = Some (r, c) →
  first_fit (queue st) (Z.of_nat (count_row r (drop (slot_idx st) slots))) = Some i →
  queue st !! i = Some ([], reps) →
  (1 ≤ reps)%Z →
  sched_step slots st
  = Ok (Some (Sched (slot_idx st) (delete i (queue st)) (final_assignments st))) ∧
  ∀ fuel, sched_loop (S fuel) slots st
          = sched_loop fuel slots
              (Sched (slot_idx st) (delete i (queue st)) (final_assignments st)).
Proof.
  intros Hw Hfit Hg Hpos.
  destruct (first_fit_Some _ _ _ Hfit) as (sub' & reps' & Hg' & Hle & _).
  rewrite Hg in Hg'. injection Hg' as <- <-.
  destruct (tps_of_facts 0 _ reps Hpos Hle) as (Hz & _ & _).
  pose proof (sched_step_fit _ _ _ _ _ _ _ Hw Hfit Hg Hpos) as Hstep.
  cbn [length] in Hstep, Hz.
  replace (tps_of 0 _ reps) with 0 in Hstep by lia.
  cbn in Hstep. rewrite Nat.add_0_r, app_nil_r in Hstep.
  split; [done|]. intros fuel. by rewrite sched_loop_S, Hstep.
Qed.

Lemma hollow_queue_run slots q r c :
  slots !! 0 = Some (r, c) →
  Forall (λ g : group, g.1 = [] ∧ (1 ≤ g.2 ≤ Z.of_nat (count_row r slots))%Z) q →
  schedule slots q = Ok ([], []) ∧
  ∀ self start_col, valid_slots_of (rows self) start_col = slots →
    assign_samples self q start_col = Ok (self, []).
Proof.
  intros Hw Hq.
  assert (∀ fuel, length q < fuel →
            sched_loop fuel slots (Sched 0 q []) = Ok ([], [])) as Hloop.
  { induction Hq as [|[sub reps] q [Hsub Hreps] _ IH]; intros fuel Hfuel.
    - destruct fuel as [|fuel]; [simpl in Hfuel; lia|].
      rewrite sched_loop_S, sched_step_exit; [done|by right].
    - simpl in Hsub, Hreps, Hfuel. subst sub.
      destruct fuel as [|fuel]; [lia|].
      destruct (empty_group_removed slots (Sched 0 (([], reps) :: q) []) r c 0 reps)
        as [_ ->]; [done| |done|lia|].
      + apply first_fit_head. cbn [slot_idx]. rewrite drop_0. lia.
      + apply IH. lia. }
  assert (schedule slots q = Ok ([], [])) as Hrun
    by (unfold schedule; apply Hloop; lia).
  split; [done|]. intros self start_col Hslots.
  unfold assign_samples. by rewrite Hslots, Hrun.
Qed.

(** A queue of groups without members, each of a replicate count the first
    row can hold: the run removes them one after the other, places nothing
    and leaves nothing over. *)
Theorem hollow_queue_disappears slots q r c :
  slots !! 0 = Some (r, c) →
  Forall (λ g : group, g.1 = [] ∧ (1 ≤ g.2 ≤ Z.of_nat (count_row r slots))%Z) q →
  schedule slots q = Ok ([], []) ∧
  ∀ self start_col, valid_slots_of (rows self) start_col = slots →
    assign_samples self q start_col = Ok (self, []).
Proof. apply hollow_queue_run. Qed.

Lemma hollow_queue_disappears_witness :
  schedule (valid_slots_of plate_rows 2) [([], 3%Z); ([], 11%Z)] = Ok ([], []) ∧
  ∀ self start_col,
    valid_slots_of (rows self) start_col = valid_slots_of plate_rows 2 →
    assign_samples self [([], 3%Z); ([], 11%Z)] start_col = Ok (self, []).
Proof.
  apply (hollow_queue_disappears (valid_slots_of plate_rows 2)
           [([], 3%Z); ([], 11%Z)] "A" 2%Z); [done|].
  repeat constructor; simpl; vm_compute; congruence.
Defined.

(** ** The per-plate loop on groups that fit a row *)

Lemma sched_next_reps slots st st' (g' : group) :
  sched_next slots st st' → g' ∈ queue st' →
  ∃ g : group, g ∈ queue st ∧ g'.2 = g.2.
Proof.
  intros Hstep Hin. apply sched_step_cases in Hstep as (r & c & Hw & Hq & Hcases).
  destruct Hcases as [[Hfit ->]|[(i & sub & reps & sub' & Hfit & Hg & Hneg & Hsuf & ->)
    |(i & sub & reps & Hfit & Hg & Hpos & Hle & ->)]]; cbn [queue] in Hin.
  - by exists g'.
  - apply elem_of_cons in Hin as [->|Hin].
    + exists (sub, reps). split; [by eapply list_elem_of_lookup_2|done].
    + exists g'. split; [by eapply list_elem_of_delete_inv|done].
  - assert (g' = (drop (tps_of (length sub)
                          (count_row r (drop (slot_idx st) slots)) reps) sub, reps)
            ∨ g' ∈ delete i (queue st)) as [->|Hd]
      by (case_decide; [by apply elem_of_cons in Hin|by right]).
    + exists (sub, reps). split; [by eapply list_elem_of_lookup_2|done].
    + exists g'. split; [by eapply list_elem_of_delete_inv|done].
Qed.

Lemma sched_steps_fits slots st st' :
  rtc (sched_next slots) st st' → fits_a_row (queue st) → fits_a_row (queue st').
Proof.
  induction 1 as [|st st1 st' Hstep _ IH]; [done|]. intros Hfits. apply IH.
  apply Forall_forall. intros g' Hin.
  destruct (sched_next_reps _ _ _ _ Hstep Hin) as (g & Hg & ->).
  revert g Hg. by apply Forall_forall.
Qed.

Lemma sched_next_members slots st st' :
  valid_queue (queue st) → sched_next slots st st' →
  valid_queue (queue st') ∧
  members_and_groups (queue st') ≤ members_and_groups (queue st).
Proof.
  intros Hv Hstep. destruct (sched_next_inv _ _ _ Hstep) as (_ & pl & H).
  destruct (H (queue st) []) as (_ & Hq).
  destruct (Hq Hv) as (Hv' & Hc & Hprog). split; [done|].
  assert (conserved (queue st) st []) as Hc0 by (by unfold conserved).
  apply Hc in Hc0. unfold conserved in Hc0.
  apply Permutation_length in Hc0. rewrite length_app in Hc0.
  unfold members_and_groups. lia.
Qed.

Lemma sched_steps_members slots st st' :
  rtc (sched_next slots) st st' → valid_queue (queue st) →
  members_and_groups (queue st') ≤ members_and_groups (queue st).
Proof.
  induction 1 as [|st st1 st' Hstep _ IH]; [done|]. intros Hv.
  destruct (sched_next_members _ _ _ Hv Hstep) as (Hv1 & Hle).
  specialize (IH Hv1). lia.
Qed.

(** The first pass of a run whose first group fits the first row places a
    member or removes an empty group. *)
Lemma first_pass_progress slots r c sub reps rest :
  slots !! 0 = Some (r, c) →
  (1 ≤ reps ≤ Z.of_nat (count_row r slots))%Z →
  ∃ st1, sched_step slots (Sched 0 ((sub, reps) :: rest) []) = Ok (Some st1) ∧
    members_and_groups (queue st1) < members_and_groups ((sub, reps) :: rest).
Proof.
  intros Hw [Hpos Hle].
  assert (first_fit ((sub, reps) :: rest)
            (Z.of_nat (count_row r (drop 0 slots))) = Some 0) as Hfit
    by (apply first_fit_head; by rewrite drop_0).
  destruct (tps_of_facts (length sub) (count_row r slots) reps Hpos Hle)
    as (Hlen & _ & Htps).
  eexists. split.
  - by apply (sched_step_fit slots (Sched 0 ((sub, reps) :: rest) []) r c 0 sub reps).
  - cbn [queue slot_idx delete]. rewrite drop_0.
    unfold members_and_groups. rewrite tagged_cons, length_app, length_fmap.
    case_decide.
    + rewrite tagged_cons, length_app, length_fmap, length_drop. simpl. lia.
    + simpl. lia.
Qed.

Lemma plate_pass_fits q :
  valid_queue q → fits_a_row q → q ≠ [] →
  ∃ fa lo, schedule (valid_slots_of plate_rows 2) q = Ok (fa, lo) ∧
    valid_queue lo ∧ fits_a_row lo ∧
    members_and_groups lo < members_and_groups q.
Proof.
  intros Hv Hfits Hne.
  destruct (schedule_spec (valid_slots_of plate_rows 2) q Hv)
    as (n & st' & pl & _ & Hsteps & Hexit & Hrun & _ & _ & Hv').
  exists (final_assignments st'), (queue st').
  destruct q as [|[sub reps] rest]; [done|].
  apply Forall_cons_1 in Hv as Hv0. apply Forall_cons_1 in Hfits as Hf0.
  destruct Hv0 as [Hpos _], Hf0 as [Hle _]. simpl in Hpos, Hle.
  destruct (first_pass_progress (valid_slots_of plate_rows 2) "A" 2%Z sub reps rest)
    as (st1 & Hstep1 & Hlt); [done|split; [done|]; by vm_compute|].
  inversion Hsteps as [|n' ? st1' ? Hstep Hrest]; subst.
  - by rewrite Hstep1 in Hexit.
  - unfold sched_next in Hstep. rewrite Hstep1 in Hstep. injection Hstep as <-.
    apply rtc_nsteps_2 in Hrest.
    destruct (sched_next_members _ (Sched 0 ((sub, reps) :: rest) []) _ Hv Hstep1)
      as (Hv1 & _).
    pose proof (sched_steps_members _ _ _ Hrest Hv1) as Hle'.
    split_and!; [done|done| |lia].
    apply (sched_steps_fits _ (Sched 0 ((sub, reps) :: rest) []) _
             (rtc_l _ _ _ _ Hstep1 Hrest) Hfits).
Qed.

(** When every group has between 1 and 11 replicates, the per-plate loop of
    [main] comes to an end: every plate places a member or drops an empty
    group, so the loop returns after at most as many plates as the queue
    has members and groups. *)
Theorem plates_loop_terminates q :
  valid_queue q → fits_a_row q →
  ∃ plates, length plates ≤ members_and_groups q ∧
    ∀ fuel, members_and_groups q < fuel → plates_loop fuel q = Ok plates.
Proof.
  remember (members_and_groups q) as m eqn:Hm.
  assert (members_and_groups q ≤ m) as Hle by lia. clear Hm.
  revert q Hle. induction m as [|m IH]; intros q Hle Hv Hfits.
  - destruct q as [|g q]; [|unfold members_and_groups in Hle; simpl in Hle; lia].
    exists []. split; [simpl; lia|]. intros [|fuel] Hfuel; [lia|done].
  - destruct q as [|g q].
    { exists []. split; [simpl; lia|]. intros [|fuel] Hfuel; [lia|done]. }
    destruct (plate_pass_fits (g :: q) Hv Hfits) as (fa & lo & Hrun & Hv' & Hf' & Hlt);
      [done|].
    destruct init_default_rows as (L & HL & Hrows).
    assert (assign_samples L (g :: q) 2
            = Ok (_render_assignments_linear L fa, lo)) as Hpass
      by (unfold assign_samples; by rewrite Hrows, Hrun).
    destruct lo as [|g1 lo].
    + exists [_render_assignments_linear L fa]. split; [simpl; lia|].
      intros [|fuel] Hfuel; [lia|].
      by rewrite plates_loop_S, HL, result_bind_Ok, Hpass, result_bind_Ok.
    + destruct (IH (g1 :: lo)) as (plates & Hlen & Hloop); [lia|done|done|].
      exists (_render_assignments_linear L fa :: plates). split; [simpl; lia|].
      intros [|fuel] Hfuel; [lia|].
      rewrite plates_loop_S, HL, result_bind_Ok, Hpass, result_bind_Ok.
      rewrite Hloop by lia. done.
Qed.

Lemma plates_loop_terminates_witness :
  ∃ plates, length plates ≤ members_and_groups two_sixes ∧
    ∀ fuel, members_and_groups two_sixes < fuel →
      plates_loop fuel two_sixes = Ok plates.
Proof.
  apply (plates_loop_terminates two_sixes);
    repeat constructor; simpl; lia.
Defined.

(** ** Editing a plate *)

Lemma put_cell_eq grid key v : put_cell grid key v !! key = v.
Proof. destruct v; simpl; [apply lookup_insert_eq|apply lookup_delete_eq]. Qed.

Lemma put_cell_ne grid key key' v :
  key ≠ key' → put_cell grid key v !! key' = grid !! key'.
Proof.
  intros Hne. destruct v; simpl; [by apply lookup_insert_ne|by apply lookup_delete_ne].
Qed.

Lemma delete_put_cell grid key v : delete key (put_cell grid key v) = delete key grid.
Proof.
  apply map_eq. intros k. destruct (decide (key = k)) as [->|Hne].
  - by rewrite !lookup_delete_eq.
  - by rewrite !lookup_delete_ne, put_cell_ne.
Qed.

Lemma set_well_on self r c v t :
  on_plate self r c →
  set_well self r c v t
  = (mkPlateLayout (rows self) (cols self)
       (put_cell (layout_grid self) (r, c) v)
       (put_cell (type_grid self) (r, c) t)
       (standard_concentrations self), true).
Proof. intros H. unfold set_well. by rewrite decide_True. Qed.

Lemma set_well_off self r c v t :
  ¬ on_plate self r c → set_well self r c v t = (self, false).
Proof. intros H. unfold set_well. by rewrite decide_False. Qed.

(** [set_well] writes a well of the plate and nothing else: off the plate
    (a row label or column number the plate does not have) it returns
    False and changes nothing; on the plate it returns True, the well then
    reads back the value and the type given (a NaN empties it), and every
    other well, the row and column lists and the standards are as before. *)
Theorem set_well_checks_bounds self r c v t :
  (¬ on_plate self r c → set_well self r c v t = (self, false)) ∧
  (on_plate self r c →
     (set_well self r c v t).2 = true ∧
     layout_grid (set_well self r c v t).1 !! (r, c) = v ∧
     type_grid (set_well self r c v t).1 !! (r, c) = t ∧
     rows (set_well self r c v t).1 = rows self ∧
     cols (set_well self r c v t).1 = cols self ∧
     standard_concentrations (set_well self r c v t).1
       = standard_concentrations self ∧
     ∀ key, key ≠ (r, c) →
       layout_grid (set_well self r c v t).1 !! key = layout_grid self !! key ∧
       type_grid (set_well self r c v t).1 !! key = type_grid self !! key).
Proof.
  split; [apply set_well_off|]. intros Hon. rewrite (set_well_on _ _ _ _ _ Hon).
  cbn [fst snd layout_grid type_grid rows cols standard_concentrations].
  split_and!; [done|apply put_cell_eq|apply put_cell_eq|done|done|done|].
  intros key Hne. by rewrite !put_cell_ne.
Qed.

(** [change <Src> to <Dst>] between two different wells of the plate, the
    source holding a value: afterwards the destination holds the value and
    the type of the source (whatever it held before, a standard included, is
    overwritten), the source is empty, and every other well is as before. *)
Theorem change_moves_sample layout r_src c_src r_dst c_dst val :
  layout_grid layout !! (r_src, c_src) = Some val →
  on_plate layout r_src c_src → on_plate layout r_dst c_dst →
  (r_src, c_src) ≠ (r_dst, c_dst) →
  let layout' := apply_command layout (Change r_src c_src r_dst c_dst) in
  layout_grid layout' !! (r_dst, c_dst) = Some val ∧
  type_grid layout' !! (r_dst, c_dst) = type_grid layout !! (r_src, c_src) ∧
  layout_grid layout' !! (r_src, c_src) = None ∧
  type_grid layout' !! (r_src, c_src) = None ∧
  ∀ key, key ≠ (r_src, c_src) → key ≠ (r_dst, c_dst) →
    layout_grid layout' !! key = layout_grid layout !! key ∧
    type_grid layout' !! key = type_grid layout !! key.
Proof.
  intros Hval Hsrc Hdst Hne layout'. subst layout'. unfold apply_command, clear_well.
  rewrite Hval. rewrite (set_well_on layout _ _ _ _ Hdst). cbn [fst].
  rewrite set_well_on by done. cbn [fst layout_grid type_grid].
  split_and!.
  - by rewrite put_cell_ne, put_cell_eq.
  - by rewrite put_cell_ne, put_cell_eq.
  - apply put_cell_eq.
  - apply put_cell_eq.
  - intros key Hk1 Hk2. by rewrite !put_cell_ne.
Qed.

Lemma change_moves_sample_witness :
  let layout' := apply_command seeded_plate_after (Change "A" 2 "B" 5) in
  layout_grid layout' !! ("B", 5%Z) = Some "p" ∧
  type_grid layout' !! ("B", 5%Z) = type_grid seeded_plate_after !! ("A", 2%Z) ∧
  layout_grid layout' !! ("A", 2%Z) = None ∧
  type_grid layout' !! ("A", 2%Z) = None ∧
  ∀ key, key ≠ ("A", 2%Z) → key ≠ ("B", 5%Z) →
    layout_grid layout' !! key = layout_grid seeded_plate_after !! key ∧
    type_grid layout' !! key = type_grid seeded_plate_after !! key.
Proof.
  apply (change_moves_sample seeded_plate_after "A" 2 "B" 5 "p").
  - vm_compute. reflexivity.
  - split; apply (bool_decide_unpack _); by vm_compute.
  - split; apply (bool_decide_unpack _); by vm_compute.
  - congruence.
Defined.

(** [change <Src> to <Dst>] with a destination off the plate, or with the
    destination equal to the source: [set_well] refuses or is undone, and
    the source is cleared all the same. The command acts as
    [exclude <Src>]: the sample is removed from the plate. *)
Theorem change_off_plate_deletes layout r_src c_src r_dst c_dst val :
  layout_grid layout !! (r_src, c_src) = Some val →
  on_plate layout r_src c_src →
  ¬ on_plate layout r_dst c_dst ∨ (r_dst, c_dst) = (r_src, c_src) →
  apply_command layout (Change r_src c_src r_dst c_dst)
  = apply_command layout (Exclude r_src c_src) ∧
  layout_grid (apply_command layout (Change r_src c_src r_dst c_dst))
    !! (r_src, c_src) = None.
Proof.
  intros Hval Hsrc Hdst.
  assert (apply_command layout (Change r_src c_src r_dst c_dst)
          = apply_command layout (Exclude r_src c_src)) as Heq.
  { unfold apply_command, clear_well. rewrite Hval.
    destruct Hdst as [Hoff|Hsame].
    - by rewrite (set_well_off layout _ _ _ _ Hoff).
    - injection Hsame as -> ->. rewrite (set_well_on layout _ _ _ _ Hsrc). cbn [fst].
      rewrite !set_well_on by done. cbn [fst layout_grid type_grid rows cols
        standard_concentrations].
      change (put_cell ?g ?k None) with (delete k g).
      by rewrite !delete_put_cell. }
  split; [done|]. rewrite Heq. unfold apply_command, clear_well.
  rewrite set_well_on by done. apply put_cell_eq.
Qed.

Lemma change_off_plate_deletes_witness :
  apply_command seeded_plate_after (Change "A" 2 "Z" 9)
  = apply_command seeded_plate_after (Exclude "A" 2) ∧
  layout_grid (apply_command seeded_plate_after (Change "A" 2 "Z" 9))
    !! ("A", 2%Z) = None.
Proof.
  apply (change_off_plate_deletes seeded_plate_after "A" 2 "Z" 9 "p").
  - vm_compute. reflexivity.
  - split; apply (bool_decide_unpack _); by vm_compute.
  - left. intros [Hrow _]. revert Hrow. apply (bool_decide_unpack _). by vm_compute.
Defined.

Lemma apply_command_on_plate layout cmd :
  rows (apply_command layout cmd) = rows layout ∧
  cols (apply_command layout cmd) = cols layout ∧
  standard_concentrations (apply_command layout cmd)
    = standard_concentrations layout ∧
  ∀ r c, ¬ on_plate layout r c →
    layout_grid (apply_command layout cmd) !! (r, c) = layout_grid layout !! (r, c) ∧
    type_grid (apply_command layout cmd) !! (r, c) = type_grid layout !! (r, c).
Proof.
  assert (∀ L r0 c0 v t,
    rows (set_well L r0 c0 v t).1 = rows L ∧
    cols (set_well L r0 c0 v t).1 = cols L ∧
    standard_concentrations (set_well L r0 c0 v t).1 = standard_concentrations L ∧
    ∀ r c, ¬ on_plate L r c →
      layout_grid (set_well L r0 c0 v t).1 !! (r, c) = layout_grid L !! (r, c) ∧
      type_grid (set_well L r0 c0 v t).1 !! (r, c) = type_grid L !! (r, c)) as Hset.
  { intros L r0 c0 v t. destruct (decide (on_plate L r0 c0)) as [Hon|Hoff].
    - rewrite (set_well_on _ _ _ _ _ Hon). split_and!; [done..|].
      intros r c Hrc. cbn [fst layout_grid type_grid].
      assert ((r0, c0) ≠ (r, c)) by (intros [= -> ->]; done).
      by rewrite !put_cell_ne.
    - by rewrite (set_well_off _ _ _ _ _ Hoff). }
  destruct cmd as [|r_src c_src r_dst c_dst|r0 c0|r0 c0 val];
    cbn [apply_command]; [done| |apply Hset|apply Hset].
  destruct (layout_grid layout !! (r_src, c_src)) as [val|]; [|done].
  unfold clear_well.
  destruct (Hset layout r_dst c_dst (Some val) (type_grid layout !! (r_src, c_src)))
    as (Hr1 & Hc1 & Hs1 & Hf1).
  destruct (Hset (set_well layout r_dst c_dst (Some val)
                    (type_grid layout !! (r_src, c_src))).1 r_src c_src None None)
    as (Hr2 & Hc2 & Hs2 & Hf2).
  split_and!; [congruence..|]. intros r c Hrc.
  destruct (Hf1 r c Hrc) as [<- <-]. apply Hf2.
  unfold on_plate. by rewrite Hr1, Hc1.
Qed.

(** Whatever commands are entered, [interactive_edit] leaves the row labels,
    the column numbers and the standards list of the plate as they were, and
    changes no well off the plate. *)
Theorem interactive_edit_stays_on_plate layout cmds :
  rows (interactive_edit layout cmds) = rows layout ∧
  cols (interactive_edit layout cmds) = cols layout ∧
  standard_concentrations (interactive_edit layout cmds)
    = standard_concentrations layout ∧
  ∀ r c, ¬ on_plate layout r c →
    layout_grid (interactive_edit layout cmds) !! (r, c)
      = layout_grid layout !! (r, c) ∧
    type_grid (interactive_edit layout cmds) !! (r, c)
      = type_grid layout !! (r, c).
Proof.
  unfold interactive_edit. revert layout.
  induction cmds as [|cmd cmds IH]; intros layout; [done|].
  cbn [foldl]. destruct (apply_command_on_plate layout cmd) as (Hr & Hc & Hs & Hf).
  destruct (IH (apply_command layout cmd)) as (Hr' & Hc' & Hs' & Hf').
  split_and!; [congruence..|]. intros r c Hrc.
  destruct (Hf r c Hrc) as [<- <-]. apply Hf'. unfold on_plate. by rewrite Hr, Hc.
Qed.

(** ** Export and import *)

Lemma grid_wells_NoDup (rs : list string) (cs : list Z) :
  NoDup rs → NoDup cs → NoDup (r ← rs; c ← cs; [(r, c)]).
Proof.
  intros Hrs Hcs. apply NoDup_bind; [| |done].
  - intros r1 r2 w _ _ (c1 & Hw1 & _)%list_elem_of_bind (c2 & Hw2 & _)%list_elem_of_bind.
    apply list_elem_of_singleton in Hw1, Hw2. congruence.
  - intros r _. apply NoDup_bind; [| |done].
    + intros c1 c2 w _ _ Hw1%list_elem_of_singleton Hw2%list_elem_of_singleton.
      congruence.
    + intros c _. apply NoDup_singleton.
Qed.

Lemma to_csv_rows_wells self :
  record_well <$> to_csv_rows self
    `sublist_of` (r ← rows self; c ← cols self; [(r, c)]).
Proof.
  unfold to_csv_rows. induction (rows self) as [|r rs IHr]; [done|].
  rewrite !bind_cons, fmap_app. apply sublist_app; [|done]. clear IHr.
  induction (cols self) as [|c cs IHc]; [done|].
  rewrite !bind_cons, fmap_app. apply sublist_app; [|done].
  destruct (layout_grid self !! (r, c)); [done|apply sublist_nil_l].
Qed.

Lemma elem_of_to_csv_rows self (rec : csv_record) :
  rec ∈ to_csv_rows self ↔
  ∃ r c val, rec = (r, c, type_grid self !! (r, c), Some val) ∧
    on_plate self r c ∧ layout_grid self !! (r, c) = Some val.
Proof.
  unfold to_csv_rows, on_plate. rewrite list_elem_of_bind. split.
  - intros (r & (c & Hrec & Hc)%list_elem_of_bind & Hr).
    destruct (layout_grid self !! (r, c)) as [val|] eqn:Hval;
      [|by apply elem_of_nil in Hrec].
    apply list_elem_of_singleton in Hrec. by exists r, c, val.
  - intros (r & c & val & -> & [Hr Hc] & Hval). exists r. split; [|done].
    apply list_elem_of_bind. exists c. split; [|done].
    rewrite Hval. by apply list_elem_of_singleton.
Qed.

(** Replaying records whose wells are on the plate and pairwise distinct:
    each record's well reads back its ID and Type, the other wells are
    untouched. *)
Lemma load_rows_spec (df : list csv_record) : ∀ L0,
  NoDup (record_well <$> df) →
  (∀ rec, rec ∈ df → on_plate L0 (record_well rec).1 (record_well rec).2) →
  let L := foldl (λ layout rec,
                    let '(r, c, t, i) := rec in (set_well layout r c i t).1) L0 df in
  rows L = rows L0 ∧ cols L = cols L0 ∧
  standard_concentrations L = standard_concentrations L0 ∧
  (∀ r c t i, (r, c, t, i) ∈ df →
     layout_grid L !! (r, c) = i ∧ type_grid L !! (r, c) = t) ∧
  (∀ key, key ∉ record_well <$> df →
     layout_grid L !! key = layout_grid L0 !! key ∧
     type_grid L !! key = type_grid L0 !! key).
Proof.
  induction df as [|[[[r0 c0] t0] i0] df IH]; intros L0 Hnd Hon.
  { cbn. split_and!; [done|done|done| |done].
    intros r c t i Hin. by apply elem_of_nil in Hin. }
  rewrite fmap_cons in Hnd. apply NoDup_cons in Hnd as [Hfresh Hnd].
  assert (on_plate L0 r0 c0) as Hon0 by (apply (Hon (r0, c0, t0, i0)), elem_of_cons; by left).
  cbn [foldl]. rewrite (set_well_on _ _ _ _ _ Hon0). cbn [fst].
  set (L1 := mkPlateLayout _ _ _ _ _).
  destruct (IH L1 Hnd) as (Hr & Hc & Hs & Hread & Hframe).
  { intros rec Hrec. apply (Hon rec), elem_of_cons. by right. }
  split_and!; [done|done|done| |].
  - intros r c t i [Heq|Hin]%elem_of_cons.
    + injection Heq as -> -> -> ->. destruct (Hframe (r0, c0) Hfresh) as [-> ->].
      subst L1. cbn [layout_grid type_grid]. by rewrite !put_cell_eq.
    + by apply Hread.
  - intros key Hkey. rewrite fmap_cons in Hkey.
    apply not_elem_of_cons in Hkey as [Hne Hkey].
    destruct (Hframe key Hkey) as [-> ->]. subst L1. cbn [layout_grid type_grid].
    change (record_well (r0, c0, t0, i0)) with (r0, c0) in Hne.
    by rewrite !put_cell_ne.
Qed.

(** The table [to_csv] builds: it has a record for a well exactly when the
    well is one of rows x cols and its ID cell is not NaN, and the record
    carries the well's ID and its type (NaN when it has none); a typed well
    without ID and a cell off rows x cols are not exported. The records come
    rows outermost and columns innermost, and no well is exported twice
    when the row labels and the column numbers are pairwise distinct. *)
Theorem to_csv_exports_filled_wells self :
  (∀ rec : csv_record, rec ∈ to_csv_rows self ↔
     ∃ r c val, rec = (r, c, type_grid self !! (r, c), Some val) ∧
       on_plate self r c ∧ layout_grid self !! (r, c) = Some val) ∧
  (∀ r c, layout_grid self !! (r, c) = None ∨ ¬ on_plate self r c →
     (r, c) ∉ record_well <$> to_csv_rows self) ∧
  record_well <$> to_csv_rows self
    `sublist_of` (r ← rows self; c ← cols self; [(r, c)]) ∧
  (NoDup (rows self) → NoDup (cols self) →
   NoDup (record_well <$> to_csv_rows self)).
Proof.
  split_and!.
  - apply elem_of_to_csv_rows.
  - intros r c Hno (rec & Hw & (r' & c' & val & -> & Hon & Hval)%elem_of_to_csv_rows)
      %list_elem_of_fmap.
    injection Hw as -> ->. destruct Hno as [Hnone|Hoff]; [congruence|done].
  - apply to_csv_rows_wells.
  - intros Hr Hc. eapply sublist_NoDup; [|apply to_csv_rows_wells].
    by apply grid_wells_NoDup.
Qed.

(** The table of [seeded_plate_after]: the standard of A1 and the four
    sample wells, row A from column 1 on. *)
Example to_csv_rows_example :
  to_csv_rows seeded_plate_after
  = [("A", 1%Z, Some "Standard", Some "STD_6.4");
     ("A", 2%Z, Some "Sample", Some "p"); ("A", 3%Z, Some "Sample", Some "p");
     ("A", 4%Z, Some "Sample", Some "q"); ("A", 5%Z, Some "Sample", Some "q")].
Proof. by vm_compute. Qed.

(** [from_csv] on the rows of a table whose wells are on the plate (A..H,
    1..12) and pairwise distinct: it returns a plate with the rows and
    columns of [__init__] and an empty standards list (no standard is
    placed unless the table holds it); every record's well reads back the
    record's ID and Type, and every well the table does not name is
    empty. *)
Theorem from_csv_loads_table (df : list csv_record) :
  NoDup (record_well <$> df) →
  (∀ rec, rec ∈ df →
     (record_well rec).1 ∈ plate_rows ∧ (record_well rec).2 ∈ seqZ 1 12) →
  ∃ L, from_csv_rows df = Ok L ∧
    rows L = plate_rows ∧ cols L = seqZ 1 12 ∧ standard_concentrations L = [] ∧
    (∀ r c t i, (r, c, t, i) ∈ df →
       layout_grid L !! (r, c) = i ∧ type_grid L !! (r, c) = t) ∧
    (∀ key, key ∉ record_well <$> df →
       layout_grid L !! key = None ∧ type_grid L !! key = None).
Proof.
  intros Hnd Hon.
  destruct (load_rows_spec df (mkPlateLayout plate_rows (seqZ 1 12) ∅ ∅ []) Hnd Hon)
    as (Hr & Hc & Hs & Hread & Hframe).
  eexists. split; [reflexivity|].
  split_and!; [done|done|done|done|].
  intros key Hkey. destruct (Hframe key Hkey) as [-> ->].
  cbn [layout_grid type_grid]. by rewrite !lookup_empty.
Qed.

Lemma from_csv_loads_table_witness :
  ∃ L, from_csv_rows [("A", 1%Z, Some "Standard", Some "STD_6.4");
                      ("B", 3%Z, Some "Sample", Some "p")] = Ok L ∧
    rows L = plate_rows ∧ cols L = seqZ 1 12 ∧ standard_concentrations L = [] ∧
    (∀ r c t i, (r, c, t, i) ∈ [("A", 1%Z, Some "Standard", Some "STD_6.4");
                                ("B", 3%Z, Some "Sample", Some "p")] →
       layout_grid L !! (r, c) = i ∧ type_grid L !! (r, c) = t) ∧
    (∀ key, key ∉ record_well <$> [("A", 1%Z, Some "Standard", Some "STD_6.4");
                                   ("B", 3%Z, Some "Sample", Some "p")] →
       layout_grid L !! key = None ∧ type_grid L !! key = None).
Proof.
  apply (from_csv_loads_table [("A", 1%Z, Some "Standard", Some "STD_6.4");
                               ("B", 3%Z, Some "Sample", Some "p")]).
  - apply (bool_decide_unpack _). by vm_compute.
  - intros rec Hrec. apply (bool_decide_unpack _).
    repeat (apply elem_of_cons in Hrec as [->|Hrec]; [by vm_compute|]).
    by apply elem_of_nil in Hrec.
Defined.

Lemma load_rows_plate (df : list csv_record) : ∀ L0,
  rows (foldl (λ layout rec, let '(r, c, t, i) := rec in
                 (set_well layout r c i t).1) L0 df) = rows L0 ∧
  cols (foldl (λ layout rec, let '(r, c, t, i) := rec in
                 (set_well layout r c i t).1) L0 df) = cols L0.
Proof.
  induction df as [|[[[r0 c0] t0] i0] df IH]; intros L0; [done|].
  cbn [foldl]. destruct (IH (set_well L0 r0 c0 i0 t0).1) as [-> ->].
  destruct (decide (on_plate L0 r0 c0)) as [Hon|Hoff].
  - by rewrite (set_well_on _ _ _ _ _ Hon).
  - by rewrite (set_well_off _ _ _ _ _ Hoff).
Qed.

(** [from_csv] drops the records it cannot place: a record whose Row is
    not one of A..H or whose Col is not one of 1..12 changes nothing; the
    plate is the one read from the table without that record. *)
Theorem from_csv_skips_off_plate (df1 df2 : list csv_record) r c t i :
  ¬ (r ∈ plate_rows ∧ c ∈ seqZ 1 12) →
  from_csv_rows (df1 ++ (r, c, t, i) :: df2) = from_csv_rows (df1 ++ df2).
Proof.
  intros Hoff. unfold from_csv_rows.
  change (PlateLayout__init__ [])
    with (Ok (mkPlateLayout plate_rows (seqZ 1 12) ∅ ∅ [])).
  rewrite !result_bind_Ok, !foldl_app. cbn [foldl]. do 2 f_equal.
  rewrite set_well_off; [done|].
  unfold on_plate. by destruct (load_rows_plate df1
    (mkPlateLayout plate_rows (seqZ 1 12) ∅ ∅ [])) as [-> ->].
Qed.

Lemma from_csv_skips_off_plate_witness :
  from_csv_rows ([("A", 2%Z, Some "Sample", Some "p")]
                 ++ ("K", 2%Z, Some "Sample", Some "q")
                 :: [("B", 3%Z, Some "Sample", Some "r")])
  = from_csv_rows ([("A", 2%Z, Some "Sample", Some "p")]
                   ++ [("B", 3%Z, Some "Sample", Some "r")]).
Proof.
  apply (from_csv_skips_off_plate [("A", 2%Z, Some "Sample", Some "p")]
           [("B", 3%Z, Some "Sample", Some "r")] "K" 2 (Some "Sample") (Some "q")).
  intros [Hrow _]. revert Hrow. apply (bool_decide_unpack _). by vm_compute.
Defined.

(** ** Leftovers from a failed sample on *)

Lemma index_of_None x sub : index_of x sub = None ↔ x ∉ sub.
Proof.
  induction sub as [|y sub IH]; simpl.
  - split; [intros _; apply not_elem_of_nil|done].
  - rewrite not_elem_of_cons. case_decide as Hy.
    + split; [done|]. intros [Hne _]. by destruct Hne.
    + destruct (index_of x sub); simpl.
      * split; [done|]. intros [_ Hn]. by apply IH in Hn.
      * split; [|done]. intros _. split; [done|]. by apply IH.
Qed.

Lemma index_of_first x s1 s2 :
  x ∉ s1 → index_of x (s1 ++ x :: s2) = Some (length s1).
Proof.
  induction s1 as [|y s1 IH]; intros Hn; simpl.
  - by rewrite decide_True.
  - apply not_elem_of_cons in Hn as [Hne Hn].
    rewrite decide_False by done. by rewrite IH.
Qed.

Lemma finalize_from_found all_groups failed :
  finalize_from true all_groups failed = all_groups.
Proof.
  induction all_groups as [|[sub reps] q IH]; [done|]. simpl. by rewrite IH.
Qed.

Lemma finalize_from_absent all_groups failed :
  failed ∉ sample_ids all_groups → finalize_from false all_groups failed = [].
Proof.
  induction all_groups as [|[sub reps] q IH]; [done|].
  unfold sample_ids. rewrite bind_cons, not_elem_of_app. intros [Hsub Hq].
  simpl in Hsub. simpl. apply index_of_None in Hsub. rewrite Hsub. by apply IH.
Qed.

(** [_finalize_leftovers] looks at [all_groups] only. When the failed id is
    in no group it returns the empty list. Otherwise it returns the first
    group that holds the failed id, cut to start at the first occurrence of
    that id, followed by all later groups unchanged; the groups before it
    are dropped, so the ids returned are the ids of [all_groups] from the
    failed id on. *)
Theorem finalize_leftovers_from_failed current_leftovers all_groups failed :
  (failed ∉ sample_ids all_groups →
     _finalize_leftovers current_leftovers all_groups failed = []) ∧
  (∀ pre s1 s2 reps post,
     all_groups = pre ++ (s1 ++ failed :: s2, reps) :: post →
     failed ∉ sample_ids pre → failed ∉ s1 →
     _finalize_leftovers current_leftovers all_groups failed
       = (failed :: s2, reps) :: post ∧
     sample_ids all_groups
       = (sample_ids pre ++ s1)
         ++ sample_ids (_finalize_leftovers current_leftovers all_groups failed)).
Proof.
  unfold _finalize_leftovers. split; [apply finalize_from_absent|].
  intros pre s1 s2 reps post -> Hpre Hs1.
  assert (finalize_from false (pre ++ (s1 ++ failed :: s2, reps) :: post) failed
          = (failed :: s2, reps) :: post) as ->.
  { induction pre as [|[sub r0] pre IH].
    - simpl. rewrite index_of_first by done.
      rewrite drop_app_length. by rewrite finalize_from_found.
    - unfold sample_ids in Hpre. rewrite bind_cons, not_elem_of_app in Hpre.
      destruct Hpre as [Hsub Hpre]. simpl in Hsub. apply index_of_None in Hsub.
      simpl. rewrite Hsub. by apply IH. }
  split; [done|]. unfold sample_ids.
  rewrite bind_app, !bind_cons. simpl. by rewrite <-!(assoc_L (++)).
Qed.

Example finalize_leftovers_example :
  _finalize_leftovers []
    [(["a1"; "a0"], 2%Z); (["b1"; "b0"], 3%Z); (["c"], 2%Z)] "b0"
  = [(["b0"], 3%Z); (["c"], 2%Z)].
Proof. reflexivity. Qed.

(** ** The groups [get_user_config] builds *)

Lemma timepoint_id_inj subj n_points t1 t2 :
  (1 < n_points)%Z →
  timepoint_id subj n_points t1 = timepoint_id subj n_points t2 → t1 = t2.
Proof.
  intros Hn. unfold timepoint_id. rewrite !decide_True by done.
  intros H. apply (inj (String.app subj)) in H.
  apply (inj (String.app "_t")) in H. by apply (inj pretty) in H.
Qed.

Lemma timepoints_lookup n_points j :
  j < Z.to_nat n_points →
  reverse (seqZ 0 n_points) !! j = Some (n_points - 1 - Z.of_nat j)%Z.
Proof.
  intros Hj. rewrite reverse_lookup by (rewrite length_seqZ; lia).
  rewrite length_seqZ, lookup_seqZ_lt by lia. f_equal. lia.
Qed.

(** The group of one subject has one member per timepoint (none when the
    number of timepoints is 0 or negative), newest timepoint first: member
    [j] is the id of timepoint [n_points - 1 - j], which is the bare subject
    name when there is a single timepoint; and no id occurs twice in the
    group. *)
Theorem subject_group_members subj n_points :
  length (subject_timepoints subj n_points) = Z.to_nat n_points ∧
  (∀ j, j < Z.to_nat n_points →
     subject_timepoints subj n_points !! j
       = Some (timepoint_id subj n_points (n_points - 1 - Z.of_nat j))) ∧
  (n_points = 1%Z → subject_timepoints subj n_points = [subj]) ∧
  NoDup (subject_timepoints subj n_points).
Proof.
  unfold subject_timepoints. split_and!.
  - by rewrite length_fmap, length_reverse, length_seqZ.
  - intros j Hj. by rewrite list_lookup_fmap, timepoints_lookup.
  - by intros ->.
  - destruct (decide (1 < n_points)%Z) as [Hn|Hn].
    + apply NoDup_fmap_2_strong;
        [|rewrite reverse_Permutation; apply NoDup_seqZ].
      intros t1 t2 _ _. by apply timepoint_id_inj.
    + assert (length (reverse (seqZ 0 n_points)) ≤ 1) as Hlen
        by (rewrite length_reverse, length_seqZ; lia).
      destruct (reverse (seqZ 0 n_points)) as [|t [|t' l]]; simpl in *;
        [apply NoDup_nil_2|apply NoDup_singleton|lia].
Qed.

Lemma experiment_groups_hollow i subjects n_points reps :
  (n_points ≤ 0)%Z → (1 ≤ reps ≤ 11)%Z →
  Forall (λ g : group, g.1 = [] ∧ (1 ≤ g.2 ≤ 11)%Z)
    (experiment_groups i subjects n_points reps).
Proof.
  intros Hn Hreps. unfold experiment_groups. apply Forall_fmap, Forall_true.
  intros subj. simpl. split; [|done].
  unfold subject_timepoints, seqZ. by rewrite Z2Nat.nonpos.
Qed.

(** An experiment entered with 0 (or a negative number of) timepoints and
    1 to 11 replicates: its groups have no members, [assign_samples]
    removes them without placing anything, and the per-plate loop of [main]
    ends after one plate that holds the standards only. *)
Theorem zero_timepoints_give_empty_plate i subjects n_points reps :
  (n_points ≤ 0)%Z → (1 ≤ reps ≤ 11)%Z →
  ∃ L, PlateLayout__init__ default_standards = Ok L ∧
    assign_samples L (experiment_groups i subjects n_points reps) 2 = Ok (L, []) ∧
    ∀ fuel, plates_loop (S fuel) (experiment_groups i subjects n_points reps)
            = Ok [L].
Proof.
  intros Hn Hreps. destruct init_default_rows as (L & HL & Hrows).
  exists L. split; [done|].
  assert (assign_samples L (experiment_groups i subjects n_points reps) 2
          = Ok (L, [])) as Hpass.
  { apply (hollow_queue_run (valid_slots_of plate_rows 2) _ "A" 2%Z);
      [done| |by rewrite Hrows].
    eapply Forall_impl; [by apply experiment_groups_hollow|].
    intros g [Hg Hr]. split; [done|]. change (count_row _ _) with 11. lia. }
  split; [done|]. intros fuel.
  destruct (experiment_groups i subjects n_points reps) as [|g q] eqn:Hq.
  - unfold experiment_groups in Hq. by destruct subjects.
  - by rewrite plates_loop_S, HL, result_bind_Ok, Hpass, result_bind_Ok.
Qed.

Lemma zero_timepoints_give_empty_plate_witness :
  ∃ L, PlateLayout__init__ default_standards = Ok L ∧
    assign_samples L (experiment_groups 0 ["mouse1"; "mouse2"] 0 2) 2 = Ok (L, []) ∧
    ∀ fuel, plates_loop (S fuel) (experiment_groups 0 ["mouse1"; "mouse2"] 0 2)
            = Ok [L].
Proof.
  apply (zero_timepoints_give_empty_plate 0 ["mouse1"; "mouse2"] 0 2); lia.
Defined.

Example get_user_config_example :
  get_user_config [(["m1"; "m2"], 3%Z, 2%Z); ([], 1%Z, 3%Z)]
  = [(["m1_t2"; "m1_t1"; "m1_t0"], 2%Z); (["m2_t2"; "m2_t1"; "m2_t0"], 2%Z);
     (["Exp2_Sample"], 3%Z)].
Proof. by vm_compute. Qed.

(** ** Filling a rectangle of the designer grid *)

Lemma fill_line_spec (key_of : Z → Z * Z) e s id :
  (∀ y y', key_of y = key_of y' → y = y') →
  ∀ n b rep0 (updates : gmap (Z * Z) exp_cell),
    let res := foldl (λ st x,
                        (<[key_of x := ExpCell e s id st.2]> st.1, (st.2 + 1)%Z))
                 (updates, rep0) (seqZ b (Z.of_nat n)) in
    (∀ y, (b ≤ y < b + Z.of_nat n)%Z →
       res.1 !! key_of y = Some (ExpCell e s id (rep0 + (y - b)))) ∧
    (∀ k0, (∀ y, (b ≤ y < b + Z.of_nat n)%Z → k0 ≠ key_of y) →
       res.1 !! k0 = updates !! k0).
Proof.
  intros Hinj. induction n as [|n IH]; intros b rep0 updates.
  - cbn. split; [intros y Hy; lia|done].
  - rewrite seqZ_cons by lia. cbn [foldl fst snd].
    replace (Z.pred (Z.of_nat (S n))) with (Z.of_nat n) by lia.
    destruct (IH (Z.succ b) (rep0 + 1)%Z
                (<[key_of b := ExpCell e s id rep0]> updates)) as [Hin Hout].
    split.
    + intros y Hy. destruct (decide (y = b)) as [->|Hne].
      * rewrite Hout.
        -- rewrite lookup_insert_eq. do 2 f_equal. lia.
        -- intros y' Hy' Heq%Hinj. lia.
      * rewrite Hin by lia. do 2 f_equal. lia.
    + intros k0 Hk0. rewrite Hout.
      * rewrite lookup_insert_ne; [done|]. intros Heq. apply (Hk0 b); [lia|done].
      * intros y Hy. apply Hk0. lia.
Qed.

Lemma fill_block_spec (key_of : Z → Z → Z * Z) e s k b :
  (∀ x y x' y', key_of x y = key_of x' y' → x = x' ∧ y = y') →
  ∀ n a id0 (updates : gmap (Z * Z) exp_cell),
    let res := foldl (λ st x,
                        ((fill_line (key_of x) (seqZ b (Z.of_nat k)) e s st.2 st.1).1,
                         (st.2 + 1)%Z))
                 (updates, id0) (seqZ a (Z.of_nat n)) in
    res.2 = (id0 + Z.of_nat n)%Z ∧
    (∀ x y, (a ≤ x < a + Z.of_nat n)%Z → (b ≤ y < b + Z.of_nat k)%Z →
       res.1 !! key_of x y = Some (ExpCell e s (id0 + (x - a)) (1 + (y - b)))) ∧
    (∀ k0, (∀ x y, (a ≤ x < a + Z.of_nat n)%Z → (b ≤ y < b + Z.of_nat k)%Z →
                   k0 ≠ key_of x y) →
       res.1 !! k0 = updates !! k0).
Proof.
  intros Hinj. induction n as [|n IH]; intros a id0 updates.
  - intros res. subst res. change (seqZ a (Z.of_nat 0)) with (@nil Z).
    simpl. split_and!; [lia|intros x y Hx Hy; lia|done].
  - rewrite (seqZ_cons a) by lia. cbn [foldl fst snd].
    replace (Z.pred (Z.of_nat (S n))) with (Z.of_nat n) by lia.
    destruct (fill_line_spec (key_of a) e s id0
                (λ y y' H, proj2 (Hinj _ _ _ _ H)) k b 1%Z updates) as [Lin Lout].
    fold (fill_line (key_of a) (seqZ b (Z.of_nat k)) e s id0 updates) in Lin, Lout.
    destruct (IH (Z.succ a) (id0 + 1)%Z
                (fill_line (key_of a) (seqZ b (Z.of_nat k)) e s id0 updates).1)
      as (Hid & Hin & Hout).
    split_and!.
    + rewrite Hid. lia.
    + intros x y Hx Hy. destruct (decide (x = a)) as [->|Hne].
      * rewrite Hout.
        -- rewrite Lin by done. do 2 f_equal. lia.
        -- intros x' y' Hx' Hy' [Heq _]%Hinj. lia.
      * rewrite Hin by lia. do 2 f_equal. lia.
    + intros k0 Hk0. rewrite Hout.
      * apply Lout. intros y Hy. apply Hk0; lia.
      * intros x y Hx Hy. apply Hk0; lia.
Qed.

(** [fill_cells] on the rectangle spanned by two corners given in any
    order: it returns an update for every cell of the rectangle and for no
    other; with 'vertical' each column is one sample (ids counted up from
    [next_sample_id] column by column) and the replicate number counts the
    rows from 1; with any other orientation rows and columns swap roles; the
    id returned is [next_sample_id] plus the number of samples filled. *)
Theorem fill_cells_rectangle c1 r1 c2 r2 e s next orientation :
  let c_lo := (c1 `min` c2)%Z in let c_hi := (c1 `max` c2)%Z in
  let r_lo := (r1 `min` r2)%Z in let r_hi := (r1 `max` r2)%Z in
  let vertical := bool_decide (orientation = "vertical") in
  let res := fill_cells c1 r1 c2 r2 e s next orientation in
  res.2 = (next + (if vertical then c_hi - c_lo + 1 else r_hi - r_lo + 1))%Z ∧
  (∀ c r, (c_lo ≤ c ≤ c_hi)%Z → (r_lo ≤ r ≤ r_hi)%Z →
     res.1 !! (c, r)
     = Some (ExpCell e s
               (next + (if vertical then c - c_lo else r - r_lo))
               (1 + (if vertical then r - r_lo else c - c_lo)))) ∧
  (∀ c r, ¬ ((c_lo ≤ c ≤ c_hi)%Z ∧ (r_lo ≤ r ≤ r_hi)%Z) → res.1 !! (c, r) = None).
Proof.
  intros c_lo c_hi r_lo r_hi vertical res. subst res vertical.
  unfold fill_cells. fold c_lo c_hi r_lo r_hi.
  assert (c_hi + 1 - c_lo = Z.of_nat (Z.to_nat (c_hi + 1 - c_lo)))%Z as Hc
    by (subst c_lo c_hi; lia).
  assert (r_hi + 1 - r_lo = Z.of_nat (Z.to_nat (r_hi + 1 - r_lo)))%Z as Hr
    by (subst c_lo c_hi r_lo r_hi; lia).
  case_decide as Ho.
  - rewrite bool_decide_eq_true_2 by done. unfold fill_block. rewrite Hc, Hr.
    destruct (fill_block_spec (λ c r, (c, r)) e s (Z.to_nat (r_hi + 1 - r_lo)) r_lo
                ltac:(by intros ???? [= -> ->]) (Z.to_nat (c_hi + 1 - c_lo)) c_lo next ∅)
      as (Hid & Hin & Hout).
    split_and!.
    + rewrite Hid. lia.
    + intros c r Hcr Hrr. apply Hin; lia.
    + intros c r Hno. rewrite Hout; [done|].
      intros x y Hx Hy [= -> ->]. apply Hno. lia.
  - rewrite bool_decide_eq_false_2 by done. unfold fill_block. rewrite Hc, Hr.
    destruct (fill_block_spec (λ r c, (c, r)) e s (Z.to_nat (c_hi + 1 - c_lo)) c_lo
                ltac:(by intros ???? [= -> ->]) (Z.to_nat (r_hi + 1 - r_lo)) r_lo next ∅)
      as (Hid & Hin & Hout).
    split_and!.
    + rewrite Hid. lia.
    + intros c r Hcr Hrr. apply (Hin r c); lia.
    + intros c r Hno. rewrite Hout; [done|].
      intros x y Hx Hy [= -> ->]. apply Hno. lia.
Qed.

(** The case of [test_fill_cells_vertical]. *)
Example fill_cells_vertical_test :
  (fill_cells 0 0 1 1 1 1 0 "vertical").1 !! (0, 1)%Z = Some (ExpCell 1 1 0 2) ∧
  (fill_cells 0 0 1 1 1 1 0 "vertical").1 !! (1, 0)%Z = Some (ExpCell 1 1 1 1) ∧
  (fill_cells 0 0 1 1 1 1 0 "vertical").2 = 2%Z.
Proof. split_and!; by vm_compute. Qed.
